(** * chesster: the game session and the line-exploration sandbox

    A shallow embedding of the React hooks [useExploration], [useChessGame]
    and [useGameState] and of the guard handlers of [GamePage]
    (web/src/hooks and web/src/pages/game), with the properties the
    specification states about them.

    The hooks drive a rules engine of the [chess.js] package, which is an
    external dependency.  Its rules (legality, SAN, FEN) are kept abstract
    in the record [Rules]; the bookkeeping of a [Chess] object (a current
    position and a stack of undone-able moves) is written out in
    [ChessObj].  [MiniChess] at the end of the definitions is a small
    executable instance of [Rules] used to run the session on concrete
    inputs. *)

From Stdlib Require Import String Ascii List ZArith Bool Lia Eqdep_dec.
From Stdlib Require DecimalString.
Import ListNotations.
Open Scope string_scope.
Open Scope Z_scope.

(** ** Data model (web/src/types/index.ts and the two hook interfaces) *)

(** The side to move, ['w' | 'b']. *)
Inductive Color := White | Black.

(** [ChessLine]: a suggested line; [moves] holds coordinate ("UCI")
    tokens, [moves_san] the display notation. *)
Record ChessLine := {
  description : string;
  moves : list string;
  moves_san : list string;
  evaluation : option Z
}.

Record ExplorationState := {
  isActive : bool;
  currentLine : option ChessLine;
  currentPosition : Z;
  savedFen : string;
  savedMoveIndex : Z;
  savedMoveHistory : list string
}.

Record ChessGameState := {
  fen : string;
  moveHistory : list string;
  currentMoveIndex : Z;
  isGameOver : bool;
  turn : Color
}.

(** What [exitExploration] hands back. *)
Record Saved := {
  saved_fen : string;
  saved_moveIndex : Z;
  saved_moveHistory : list string
}.

(** ** The rules engine *)

(** A [Chess] object: the current position and the stack of moves made on
    it, newest first, each with the position it was made from (this is
    what [undo] restores and what [history] lists). *)
Record ChessObj (P : Type) := {
  position : P;
  past : list (P * string)
}.
Arguments position {P} _.
Arguments past {P} _.

(** The capabilities the hooks consume.  [None] stands for a rejected
    input: [move] and [load] of chess.js throw on it.  [parse_fen_fen]
    says that the engine reads back the positions it prints. *)
Record Rules := {
  Pos : Type;
  start : Pos;
  pos_fen : Pos -> string;
  parse_fen : string -> option Pos;
  move_coord : Pos -> string -> string -> option string -> option (string * Pos);
  move_san : Pos -> string -> option (string * Pos);
  pos_turn : Pos -> Color;
  pos_over : Pos -> list Pos -> bool;
  engine_loadPgn : ChessObj Pos -> string -> ChessObj Pos * bool;
  engine_pgn : ChessObj Pos -> string;
  parse_fen_fen : forall p, parse_fen (pos_fen p) = Some p
}.

(** JavaScript helpers used by the handlers. *)

(** [s.substring(a, b)] for [a <= b]. *)
Definition js_substring (a b : nat) (s : string) : string :=
  String.substring a (b - a) s.

(** [s.length > 4 ? s[4] : undefined]. *)
Definition promotion_of (moveUci : string) : option string :=
  if (4 <? String.length moveUci)%nat then
    match String.get 4 moveUci with
    | Some c => Some (String c EmptyString)
    | None => None
    end
  else None.

(** [promotion || 'q']: [undefined] and the empty string are falsy. *)
Definition promotion_or_q (promotion : option string) : string :=
  match promotion with
  | None => "q"
  | Some EmptyString => "q"
  | Some p => p
  end.

(** [arr.slice(0, n)] for an integer [n >= 0]. *)
Definition slice0 {A} (n : Z) (l : list A) : list A := firstn (Z.to_nat n) l.

(** [arr.length || 1]. *)
Definition length_or_1 {A} (l : list A) : Z :=
  if (Z.of_nat (length l) =? 0) then 1 else Z.of_nat (length l).

(** How a call ends: with a value, or with a thrown error. *)
Inductive completion (A : Type) :=
| Returned (a : A)
| Thrown (e : string).
Arguments Returned {A} _.
Arguments Thrown {A} _.

Section Session.

Variable E : Rules.

Abbreviation Chess := (ChessObj (Pos E)).

(** *** Methods of a [Chess] object *)
Definition Chess_default : Chess := {| position := start E; past := [] |}.

(** [load(fen)]: validates, then replaces the position and clears the
    history. *)
Definition Chess_load (f : string) : option Chess :=
  match parse_fen E f with
  | Some p => Some {| position := p; past := [] |}
  | None => None
  end.

Definition Chess_fen (g : Chess) : string := pos_fen E (position g).

Definition Chess_history (g : Chess) : list string := List.rev (map snd (past g)).

(** [move({from, to, promotion})]. *)
Definition Chess_move (g : Chess) (from to : string) (promotion : option string)
  : option (string * Chess) :=
  match move_coord E (position g) from to promotion with
  | Some (san, p') =>
      Some (san, {| position := p'; past := (position g, san) :: past g |})
  | None => None
  end.

(** [move(san)]. *)
Definition Chess_move_san (g : Chess) (s : string) : option (string * Chess) :=
  match move_san E (position g) s with
  | Some (san, p') =>
      Some (san, {| position := p'; past := (position g, san) :: past g |})
  | None => None
  end.

(** [undo()]: [None] is the [null] returned on an empty history. *)
Definition Chess_undo (g : Chess) : option (string * Chess) :=
  match past g with
  | [] => None
  | (p, san) :: rest => Some (san, {| position := p; past := rest |})
  end.

Definition Chess_isGameOver (g : Chess) : bool :=
  pos_over E (position g) (map fst (past g)).

Definition Chess_turn (g : Chess) : Color := pos_turn E (position g).

(** *** The state the hooks own *)

(** [game] is the one mutable [Chess] object of [useChessGame];
    [gameState] and [explorationState] are the two React states;
    [console] collects the tokens reported by [console.error] and
    [alerts] the messages shown by [alert]. *)
Record World := {
  game : Chess;
  gameState : ChessGameState;
  explorationState : ExplorationState;
  console : list string;
  alerts : list string
}.

Definition with_game (g : Chess) (w : World) : World :=
  {| game := g; gameState := gameState w;
     explorationState := explorationState w;
     console := console w; alerts := alerts w |}.

Definition with_gameState (s : ChessGameState) (w : World) : World :=
  {| game := game w; gameState := s;
     explorationState := explorationState w;
     console := console w; alerts := alerts w |}.

Definition with_explorationState (s : ExplorationState) (w : World) : World :=
  {| game := game w; gameState := gameState w;
     explorationState := s;
     console := console w; alerts := alerts w |}.

Definition with_console (c : list string) (w : World) : World :=
  {| game := game w; gameState := gameState w;
     explorationState := explorationState w;
     console := c; alerts := alerts w |}.

Definition with_alerts (a : list string) (w : World) : World :=
  {| game := game w; gameState := gameState w;
     explorationState := explorationState w;
     console := console w; alerts := a |}.

(** *** Effects: state that survives a throw *)

Definition Eff (A : Type) : Type := World -> completion A * World.

Definition ret {A} (a : A) : Eff A := fun w => (Returned a, w).

Definition bind {A B} (c : Eff A) (k : A -> Eff B) : Eff B :=
  fun w =>
    match c w with
    | (Returned a, w') => k a w'
    | (Thrown e, w') => (Thrown e, w')
    end.

Definition throw {A} (e : string) : Eff A := fun w => (Thrown e, w).

(** [try { c } catch (e) { h e }]. *)
Definition try_catch {A} (c : Eff A) (h : string -> Eff A) : Eff A :=
  fun w =>
    match c w with
    | (Returned a, w') => (Returned a, w')
    | (Thrown e, w') => h e w'
    end.

Notation "x <- c ;; k" := (bind c (fun x => k))
  (at level 61, c at next level, right associativity).
Notation "c ;;; k" := (bind c (fun _ => k))
  (at level 61, right associativity).

Definition get_game : Eff Chess := fun w => (Returned (game w), w).
Definition set_game (g : Chess) : Eff unit := fun w => (Returned tt, with_game g w).
Definition setGameState (s : ChessGameState) : Eff unit :=
  fun w => (Returned tt, with_gameState s w).

(** [setExplorationState(value)] and [setExplorationState(prev => ...)]:
    the updater form reads the pending state, not the rendered one. *)
Definition setExplorationState (s : ExplorationState) : Eff unit :=
  fun w => (Returned tt, with_explorationState s w).
Definition updateExplorationState (f : ExplorationState -> ExplorationState)
  : Eff unit :=
  fun w => (Returned tt, with_explorationState (f (explorationState w)) w).

Definition console_error (moveUci : string) : Eff unit :=
  fun w => (Returned tt, with_console (console w ++ [moveUci]) w).
Definition alert (msg : string) : Eff unit :=
  fun w => (Returned tt, with_alerts (alerts w ++ [msg]) w).

(** [arr.forEach(body)] where the body updates a local object [s]. *)
Fixpoint forEach {A S} (l : list A) (body : A -> S -> Eff S) (s : S) : Eff S :=
  match l with
  | [] => ret s
  | a :: l' => s' <- body a s ;; forEach l' body s'
  end.

(** [for (let i = i0; ...; i++) body], run [n] times. *)
Fixpoint for_from {S} (n : nat) (i : Z) (body : Z -> S -> Eff S) (s : S) : Eff S :=
  match n with
  | O => ret s
  | S n' => s' <- body i s ;; for_from n' (i + 1) body s'
  end.

(** The engine calls of the hooks on the shared [game] object. *)
Definition game_move (from to : string) (promotion : option string)
  : Eff (option string) :=
  fun w =>
    match Chess_move (game w) from to promotion with
    | Some (san, g') => (Returned (Some san), with_game g' w)
    | None => (Thrown "Invalid move", w)
    end.

Definition game_move_san (s : string) : Eff (option string) :=
  fun w =>
    match Chess_move_san (game w) s with
    | Some (san, g') => (Returned (Some san), with_game g' w)
    | None => (Thrown "Invalid move", w)
    end.

Definition game_undo : Eff (option string) :=
  fun w =>
    match Chess_undo (game w) with
    | Some (san, g') => (Returned (Some san), with_game g' w)
    | None => (Returned None, w)
    end.

Definition game_reset : Eff unit := set_game Chess_default.

Definition game_load (f : string) : Eff unit :=
  fun w =>
    match Chess_load f with
    | Some g' => (Returned tt, with_game g' w)
    | None => (Thrown "Invalid FEN", w)
    end.

Definition game_loadPgn (pgn : string) : Eff unit :=
  fun w =>
    match engine_loadPgn E (game w) pgn with
    | (g', true) => (Returned tt, with_game g' w)
    | (g', false) => (Thrown "Invalid PGN", with_game g' w)
    end.

(** [new Chess(fen)] for a local scratch object. *)
Definition new_Chess (f : string) : Eff Chess :=
  match Chess_load f with
  | Some g => ret g
  | None => throw "Invalid FEN"
  end.

(** One step of the line replay of [useGameState]: the move is tried on
    the scratch object; a throw is reported and the object kept. *)
Definition temp_move (tempGame : Chess) (from to : string)
  (promotion : option string) : Eff Chess :=
  match Chess_move tempGame from to promotion with
  | Some (_, t') => ret t'
  | None => throw "Invalid move"
  end.

(** The body the three line loops of [useGameState] share: split the
    token, try the move, report a throw and keep the object. *)
Definition try_line_move (moveUci : string) (tempGame : Chess) : Eff Chess :=
  try_catch
    (let from := js_substring 0 2 moveUci in
     let to := js_substring 2 4 moveUci in
     let promotion := promotion_of moveUci in
     temp_move tempGame from to promotion)
    (fun _ => console_error moveUci ;;; ret tempGame).

(** ** web/src/hooks/useExploration.ts *)

Definition initialExplorationState : ExplorationState :=
  {| isActive := false; currentLine := None; currentPosition := 0;
     savedFen := ""; savedMoveIndex := -1; savedMoveHistory := [] |}.

Definition enterExploration (line : ChessLine) (currentFen : string)
  (currentMoveIndex : Z) (moveHistory : list string) : Eff unit :=
  setExplorationState
    {| isActive := true; currentLine := Some line; currentPosition := 0;
       savedFen := currentFen; savedMoveIndex := currentMoveIndex;
       savedMoveHistory := moveHistory |}.

Definition nextPosition : Eff unit :=
  updateExplorationState (fun prev =>
    {| isActive := isActive prev; currentLine := currentLine prev;
       currentPosition :=
         Z.min (currentPosition prev + 1)
               (match currentLine prev with
                | Some l => length_or_1 (moves l)
                | None => 1
                end - 1);
       savedFen := savedFen prev; savedMoveIndex := savedMoveIndex prev;
       savedMoveHistory := savedMoveHistory prev |}).

Definition previousPosition : Eff unit :=
  updateExplorationState (fun prev =>
    {| isActive := isActive prev; currentLine := currentLine prev;
       currentPosition := Z.max (currentPosition prev - 1) 0;
       savedFen := savedFen prev; savedMoveIndex := savedMoveIndex prev;
       savedMoveHistory := savedMoveHistory prev |}).

(** ** web/src/hooks/useChessGame.ts *)

Definition initialGameState : ChessGameState :=
  {| fen := Chess_fen Chess_default; moveHistory := [];
     currentMoveIndex := -1; isGameOver := false; turn := White |}.

Definition updateGameState : Eff unit :=
  g <- get_game ;;
  setGameState
    {| fen := Chess_fen g; moveHistory := Chess_history g;
       currentMoveIndex := Z.of_nat (length (Chess_history g)) - 1;
       isGameOver := Chess_isGameOver g; turn := Chess_turn g |}.

Definition makeMove (from to : string) (promotion : option string) : Eff bool :=
  try_catch
    (move <- game_move from to (Some (promotion_or_q promotion)) ;;
     match move with
     | Some _ => updateGameState ;;; ret true
     | None => ret false
     end)
    (fun _ => ret false).

Definition undoMove : Eff bool :=
  move <- game_undo ;;
  match move with
  | Some _ => updateGameState ;;; ret true
  | None => ret false
  end.

Definition resetGame : Eff unit := game_reset ;;; updateGameState.

Definition loadFen (f : string) : Eff bool :=
  try_catch (game_load f ;;; updateGameState ;;; ret true) (fun _ => ret false).

Definition loadPgn (pgn : string) : Eff bool :=
  try_catch (game_loadPgn pgn ;;; updateGameState ;;; ret true)
            (fun _ => ret false).

Definition getPgn : Eff string := g <- get_game ;; ret (engine_pgn E g).

(** The closures of one render read the React states committed at that
    render; [snap] is the world at the start of the event they serve. *)
Section Render.

Variable snap : World.

Definition exitExploration : Eff Saved :=
  let saved :=
    {| saved_fen := savedFen (explorationState snap);
       saved_moveIndex := savedMoveIndex (explorationState snap);
       saved_moveHistory := savedMoveHistory (explorationState snap) |} in
  setExplorationState initialExplorationState ;;; ret saved.

Definition gotoMove (index : Z) : Eff unit :=
  if (index <? -1) || (index >=? Z.of_nat (length (moveHistory (gameState snap))))
  then ret tt
  else
    game_reset ;;;
    (let moves := slice0 (index + 1) (moveHistory (gameState snap)) in
     forEach moves (fun move (_ : unit) => _ <- game_move_san move ;; ret tt) tt) ;;;
    g <- get_game ;;
    setGameState
      {| fen := Chess_fen g; moveHistory := moveHistory (gameState snap);
         currentMoveIndex := index;
         isGameOver := Chess_isGameOver g; turn := Chess_turn g |}.

(** ** web/src/pages/game/useGameState.ts *)

Definition handleExplore (line : ChessLine) : Eff unit :=
  enterExploration line (fen (gameState snap))
    (currentMoveIndex (gameState snap)) (moveHistory (gameState snap)) ;;;
  tempGame <- new_Chess (fen (gameState snap)) ;;
  tempGame <- forEach (moves line) try_line_move tempGame ;;
  _ <- loadFen (Chess_fen tempGame) ;;
  ret tt.

(** The counting loop of [handleExplorationNext] and
    [handleExplorationPrevious]: [line.moves[i]] of an index past the end
    is [undefined], whose [substring] is a [TypeError] outside the [try]. *)
Definition replay_upto (line : ChessLine) (pos : Z) (tempGame : Chess) : Eff Chess :=
  for_from (Z.to_nat (pos + 1)) 0 (fun i tempGame =>
    match (if i <? 0 then None else nth_error (moves line) (Z.to_nat i)) with
    | None => throw "TypeError"
    | Some moveUci => try_line_move moveUci tempGame
    end) tempGame.

Definition handleExplorationNext : Eff unit :=
  match currentLine (explorationState snap) with
  | None => ret tt
  | Some line =>
      let nextPos := currentPosition (explorationState snap) + 1 in
      if nextPos >=? Z.of_nat (length (moves line)) then ret tt
      else
        nextPosition ;;;
        tempGame <- new_Chess (savedFen (explorationState snap)) ;;
        tempGame <- replay_upto line nextPos tempGame ;;
        _ <- loadFen (Chess_fen tempGame) ;;
        ret tt
  end.

Definition handleExplorationPrevious : Eff unit :=
  match currentLine (explorationState snap) with
  | None => ret tt
  | Some line =>
      if currentPosition (explorationState snap) <=? 0 then ret tt
      else
        let prevPos := currentPosition (explorationState snap) - 1 in
        previousPosition ;;;
        tempGame <- new_Chess (savedFen (explorationState snap)) ;;
        tempGame <- replay_upto line prevPos tempGame ;;
        _ <- loadFen (Chess_fen tempGame) ;;
        ret tt
  end.

Definition handleExitExploration : Eff unit :=
  saved <- exitExploration ;;
  _ <- loadFen (saved_fen saved) ;;
  gotoMove (saved_moveIndex saved).

(** ** The guard handlers of GamePage *)

Definition handleMove (from to : string) : Eff bool :=
  if isActive (explorationState snap) then ret false
  else makeMove from to None.

(** [confirmed] is the answer [window.confirm] would give. *)
Definition handleNewGame (confirmed : bool) : Eff unit :=
  if isActive (explorationState snap) then
    alert "Please exit exploration mode first"
  else if (0 <? Z.of_nat (length (moveHistory (gameState snap)))) then
    (if confirmed then resetGame else ret tt)
  else resetGame.

Definition handleUndo : Eff unit :=
  if isActive (explorationState snap) then ret tt
  else _ <- undoMove ;; ret tt.

Definition handleResign (confirmed : bool) : Eff unit :=
  if isActive (explorationState snap) then
    alert "Please exit exploration mode first"
  else if confirmed then alert "Game resigned" else ret tt.

Definition handleMoveClick (index : Z) : Eff unit :=
  if isActive (explorationState snap) then ret tt
  else gotoMove index.

End Render.

(** An event runs a handler of the current render on the current world. *)
Definition fire {A} (h : World -> Eff A) : Eff A := fun w => h w w.

Definition ev_gotoMove (index : Z) : Eff unit := fire (fun s => gotoMove s index).
Definition ev_explore (line : ChessLine) : Eff unit :=
  fire (fun s => handleExplore s line).
Definition ev_next : Eff unit := fire handleExplorationNext.
Definition ev_previous : Eff unit := fire handleExplorationPrevious.
Definition ev_exit : Eff unit := fire handleExitExploration.
Definition ev_move (from to : string) : Eff bool :=
  fire (fun s => handleMove s from to).
Definition ev_newGame (confirmed : bool) : Eff unit :=
  fire (fun s => handleNewGame s confirmed).
Definition ev_undo : Eff unit := fire handleUndo.
Definition ev_resign (confirmed : bool) : Eff unit :=
  fire (fun s => handleResign s confirmed).
Definition ev_moveClick (index : Z) : Eff unit :=
  fire (fun s => handleMoveClick s index).

(** The world of the first render. *)
Definition initialWorld : World :=
  {| game := Chess_default; gameState := initialGameState;
     explorationState := initialExplorationState;
     console := []; alerts := [] |}.

(** *** Replays, as the specification words them *)

(** One coordinate token applied to a position, as the line loops split
    it; [None] when the engine rejects it. *)
Definition apply_token (p : Pos E) (moveUci : string) : option (Pos E) :=
  match move_coord E p (js_substring 0 2 moveUci) (js_substring 2 4 moveUci)
          (promotion_of moveUci) with
  | Some (_, p') => Some p'
  | None => None
  end.

(** Applying every token in order; defined only when all are legal. *)
Fixpoint apply_all (p : Pos E) (l : list string) : option (Pos E) :=
  match l with
  | [] => Some p
  | m :: l' =>
      match apply_token p m with
      | Some p' => apply_all p' l'
      | None => None
      end
  end.

(** Applying the tokens in order and passing over the rejected ones. *)
Fixpoint play_tokens (p : Pos E) (l : list string) : Pos E :=
  match l with
  | [] => p
  | m :: l' =>
      match apply_token p m with
      | Some p' => play_tokens p' l'
      | None => play_tokens p l'
      end
  end.

(** The tokens [play_tokens] passes over, in order. *)
Fixpoint rejected_tokens (p : Pos E) (l : list string) : list string :=
  match l with
  | [] => []
  | m :: l' =>
      match apply_token p m with
      | Some p' => rejected_tokens p' l'
      | None => m :: rejected_tokens p l'
      end
  end.

(** Replaying a list of SAN moves; defined only when all are legal. *)
Fixpoint replay_san (p : Pos E) (l : list string) : option (Pos E) :=
  match l with
  | [] => Some p
  | s :: l' =>
      match move_san E p s with
      | Some (_, p') => replay_san p' l'
      | None => None
      end
  end.

(** The engine never holds more moves than the recorded history. *)
Definition engine_within_history (w : World) : Prop :=
  (length (Chess_history (game w)) <= length (moveHistory (gameState w)))%nat.

(** Two worlds that differ at most in the engine object. *)
Definition same_react_state (w w' : World) : Prop :=
  gameState w' = gameState w /\
  explorationState w' = explorationState w /\
  console w' = console w /\ alerts w' = alerts w.

(** The [GameState] right after a successful [loadFen] of the print of [p]. *)
Definition loaded_state (p : Pos E) : ChessGameState :=
  {| fen := pos_fen E p; moveHistory := []; currentMoveIndex := -1;
     isGameOver := pos_over E p []; turn := pos_turn E p |}.

(** What a line loop leaves behind: the scratch object stands on
    [play_tokens], the rejected tokens are on the console, and nothing else
    of the world has moved. *)
Definition line_loop_result (t : Chess) (w : World) (l : list string)
  (t' : Chess) (w' : World) : Prop :=
  position t' = play_tokens (position t) l /\
  console w' = (console w ++ rejected_tokens (position t) l)%list /\
  game w' = game w /\ gameState w' = gameState w /\
  explorationState w' = explorationState w /\ alerts w' = alerts w.

(** A computation that keeps a property of the world, however it ends. *)
Definition preserves {A} (P : World -> Prop) (c : Eff A) : Prop :=
  forall w, P w -> P (snd (c w)).

(** An exploration episode over [line]: the line is in place and
    [currentPosition] is within [0 .. max 0 (len - 1)]. *)
Definition browsing (line : ChessLine) (w : World) : Prop :=
  currentLine (explorationState w) = Some line /\
  0 <= currentPosition (explorationState w)
    <= Z.max 0 (Z.of_nat (length (moves line)) - 1).

(** What the sandbox holds of the game it was entered from, and what it
    has made of the recorded history. *)
Definition sandboxed (f : string) (k : Z) (w : World) : Prop :=
  savedFen (explorationState w) = f /\
  savedMoveIndex (explorationState w) = k /\
  moveHistory (gameState w) = [].

(** The engine stack is a replay from [base]: each recorded move, read
    as SAN in the position it was made from, gives the next position. *)
Inductive replay_chain (base : Pos E) : list (Pos E * string) -> Pos E -> Prop :=
| chain_nil : replay_chain base [] base
| chain_cons (p : Pos E) (s : string) (rest : list (Pos E * string)) (p' : Pos E) :
    replay_chain base rest p ->
    move_san E p s = Some (s, p') ->
    replay_chain base ((p, s) :: rest) p'.

(** At the head of a game played from the initial position: the engine
    holds exactly the recorded moves, and they replay. *)
Definition at_head (w : World) : Prop :=
  Chess_history (game w) = moveHistory (gameState w) /\
  replay_chain (start E) (past (game w)) (position (game w)).

(** The worlds reached from the first render by moves, undos and new
    games. *)
Inductive played : World -> Prop :=
| played_initial : played initialWorld
| played_move (w : World) (from to : string) (promotion : option string) :
    played w -> played (snd (makeMove from to promotion w))
| played_undo (w : World) : played w -> played (snd (undoMove w))
| played_reset (w : World) : played w -> played (snd (resetGame w)).

(** The two navigation buttons of the exploration controls. *)
Inductive direction := Forward | Backward.


Definition ev_navigate (d : direction) : Eff unit :=
  match d with
  | Forward => ev_next
  | Backward => ev_previous
  end.

(** The steps an exploration episode is made of, at the level of the
    hook ([nextPosition], [previousPosition]) and of the handlers. *)
Inductive browse :=
| HookNext | HookPrevious | ClickNext | ClickPrevious.

Definition run_browse (b : browse) (w : World) : World :=
  match b with
  | HookNext => snd (nextPosition w)
  | HookPrevious => snd (previousPosition w)
  | ClickNext => snd (ev_next w)
  | ClickPrevious => snd (ev_previous w)
  end.

Definition run_browses (l : list browse) (w : World) : World :=
  fold_left (fun w b => run_browse b w) l w.

End Session.

(** ** MiniChess: an executable fragment of the rules

    Positions are FEN strings in canonical form; the only moves are the
    quiet pawn pushes (one square, or two from the home rank), written in
    SAN as their destination square.  Every other move, and every
    malformed token, is rejected.  The fragment is enough to run the
    session on the scenarios of the specification. *)
Module MiniChess.

Local Open Scope nat_scope.

Definition Square : Type := nat * nat.

Fixpoint index_of (c : ascii) (s : string) : option nat :=
  match s with
  | EmptyString => None
  | String d s' =>
      if Ascii.eqb c d then Some 0
      else match index_of c s' with Some n => Some (S n) | None => None end
  end.

Definition file_of (c : ascii) : option nat := index_of c "abcdefgh".
Definition rank_of (c : ascii) : option nat :=
  match index_of c "12345678" with Some n => Some (S n) | None => None end.

(** A square name such as [e4]: file [4], rank [4]. *)
Definition square_of (s : string) : option Square :=
  match s with
  | String f (String r EmptyString) =>
      match file_of f, rank_of r with
      | Some x, Some y => Some (x, y)
      | _, _ => None
      end
  | _ => None
  end.

Definition char_at (n : nat) (s : string) : string :=
  match String.get n s with
  | Some c => String c EmptyString
  | None => EmptyString
  end.

Definition square_name (sq : Square) : string :=
  (char_at (fst sq) "abcdefgh" ++ char_at (snd sq - 1) "12345678")%string.

Definition Row : Type := list (option ascii).

Record MState := {
  board : list Row;
  side : Color;
  castling : string;
  ep : string;
  halfmove : nat;
  fullmove : nat
}.

Definition piece_at (b : list Row) (sq : Square) : option ascii :=
  match nth_error (nth (8 - snd sq) b []) (fst sq) with
  | Some (Some c) => Some c
  | _ => None
  end.

Fixpoint set_nth {A} (n : nat) (v : A) (l : list A) : list A :=
  match l, n with
  | [], _ => []
  | _ :: l', O => v :: l'
  | a :: l', S n' => a :: set_nth n' v l'
  end.

Definition put_piece (b : list Row) (sq : Square) (v : option ascii) : list Row :=
  set_nth (8 - snd sq) (set_nth (fst sq) v (nth (8 - snd sq) b [])) b.

(** *** FEN text *)

Definition digit (n : nat) : string := char_at n "0123456789".

Definition flush (run : nat) : string :=
  match run with O => EmptyString | _ => digit run end.

Fixpoint encode_row (row : Row) (run : nat) : string :=
  match row with
  | [] => flush run
  | None :: r => encode_row r (S run)
  | Some c :: r => (flush run ++ String c (encode_row r 0))%string
  end.

Definition is_piece (c : ascii) : bool :=
  match index_of c "pnbrqkPNBRQK" with Some _ => true | None => false end.

Fixpoint decode_row (s : string) : option Row :=
  match s with
  | EmptyString => Some []
  | String c s' =>
      match decode_row s' with
      | None => None
      | Some r =>
          if is_piece c then Some (Some c :: r)
          else match index_of c "12345678" with
               | Some n => Some (repeat None (S n) ++ r)%list
               | None => None
               end
      end
  end.

(** [s.split(c)]. *)
Fixpoint split_on (c : ascii) (s : string) : list string :=
  match s with
  | EmptyString => [EmptyString]
  | String d s' =>
      if Ascii.eqb c d then EmptyString :: split_on c s'
      else match split_on c s' with
           | [] => [String d EmptyString]
           | x :: xs => String d x :: xs
           end
  end.

Definition show_nat (n : nat) : string :=
  DecimalString.NilZero.string_of_uint (Nat.to_uint n).

Definition read_nat (s : string) : option nat :=
  match DecimalString.NilEmpty.uint_of_string s with
  | Some u => Some (Nat.of_uint u)
  | None => None
  end.

Definition show_side (c : Color) : string :=
  match c with White => "w" | Black => "b" end.

Definition encode (st : MState) : string :=
  (String.concat "/" (map (fun r => encode_row r 0) (board st))
   ++ " " ++ show_side (side st) ++ " " ++ castling st ++ " " ++ ep st
   ++ " " ++ show_nat (halfmove st) ++ " " ++ show_nat (fullmove st))%string.

Fixpoint decode_rows (l : list string) : option (list Row) :=
  match l with
  | [] => Some []
  | s :: l' =>
      match decode_row s, decode_rows l' with
      | Some r, Some rs => if length r =? 8 then Some (r :: rs) else None
      | _, _ => None
      end
  end.

Definition castling_ok (s : string) : bool :=
  existsb (String.eqb s)
    ["-"; "K"; "Q"; "k"; "q"; "KQ"; "Kk"; "Kq"; "Qk"; "Qq"; "kq";
     "KQk"; "KQq"; "Kkq"; "Qkq"; "KQkq"]%string.

Definition ep_ok (s : string) : bool :=
  String.eqb s "-" ||
  match square_of s with
  | Some (_, r) => (r =? 3) || (r =? 6)
  | None => false
  end.

Definition count_piece (c : ascii) (b : list Row) : nat :=
  length (filter (fun x => match x with Some d => Ascii.eqb c d | None => false end)
                 (List.concat b)).

Definition decode (s : string) : option MState :=
  match split_on " " s with
  | [pl; sd; ca; e; hm; fm] =>
      match decode_rows (split_on "/" pl), read_nat hm, read_nat fm with
      | Some b, Some h, Some f =>
          if (length b =? 8) && castling_ok ca && ep_ok e && (1 <=? f)
             && (count_piece "K" b =? 1) && (count_piece "k" b =? 1)
          then
            (if String.eqb sd "w" then
               Some {| board := b; side := White; castling := ca; ep := e;
                       halfmove := h; fullmove := f |}
             else if String.eqb sd "b" then
               Some {| board := b; side := Black; castling := ca; ep := e;
                       halfmove := h; fullmove := f |}
             else None)
          else None
      | _, _, _ => None
      end
  | _ => None
  end.

(** A text is a position of the fragment when it decodes and prints back
    to itself. *)
Definition is_canonical (s : string) : bool :=
  match decode s with
  | Some st => String.eqb (encode st) s
  | None => false
  end.

Definition MPos : Type := { s : string | is_canonical s = true }.

Definition mk_pos (s : string) : option MPos :=
  match bool_dec (is_canonical s) true with
  | left H => Some (exist _ s H)
  | right _ => None
  end.

Definition mfen (p : MPos) : string := proj1_sig p.

Definition start_fen : string :=
  "rnbqkbnr/pppppppp/8/8/8/8/PPPPPPPP/RNBQKBNR w KQkq - 0 1".

Definition mstart : MPos := exist _ start_fen eq_refl.

(** *** Quiet pawn pushes *)

Definition pawn_of (c : Color) : ascii :=
  match c with White => "P"%char | Black => "p"%char end.

Definition other (c : Color) : Color :=
  match c with White => Black | Black => White end.

Definition ahead (c : Color) (r : nat) : nat :=
  match c with White => S r | Black => r - 1 end.

Definition home_rank (c : Color) : nat :=
  match c with White => 2 | Black => 7 end.

Definition holds (b : list Row) (sq : Square) (c : ascii) : bool :=
  match piece_at b sq with Some d => Ascii.eqb c d | None => false end.

Definition vacant (b : list Row) (sq : Square) : bool :=
  match piece_at b sq with Some _ => false | None => true end.

(** The en-passant field after a double push to [to]: the skipped square
    when an enemy pawn stands beside the pushed pawn, [-] otherwise. *)
Definition ep_after (b : list Row) (c : Color) (to : Square) : string :=
  let foe := pawn_of (other c) in
  if ((1 <=? fst to) && holds b (fst to - 1, snd to) foe)
     || holds b (S (fst to), snd to) foe
  then square_name (fst to, ahead (other c) (snd to))
  else "-"%string.

Definition pawn_push (st : MState) (from to : Square) : option (string * MState) :=
  let c := side st in
  let b := board st in
  let b' := put_piece (put_piece b from None) to (Some (pawn_of c)) in
  let next e :=
    Some (square_name to,
          {| board := b'; side := other c; castling := castling st; ep := e;
             halfmove := 0;
             fullmove := match c with White => fullmove st | Black => S (fullmove st) end |}) in
  if (fst from =? fst to) && holds b from (pawn_of c) && vacant b to
     && (2 <=? snd to) && (snd to <=? 7) then
    if snd to =? ahead c (snd from) then next "-"%string
    else if (snd from =? home_rank c) && (snd to =? ahead c (ahead c (snd from)))
            && vacant b (fst from, ahead c (snd from))
    then next (ep_after b' c to)
    else None
  else None.

Definition lift (f : MState -> option (string * MState)) (p : MPos)
  : option (string * MPos) :=
  match decode (mfen p) with
  | Some st =>
      match f st with
      | Some (san, st') =>
          match mk_pos (encode st') with
          | Some p' => Some (san, p')
          | None => None
          end
      | None => None
      end
  | None => None
  end.

Definition mmove_coord (p : MPos) (from to : string) (promotion : option string)
  : option (string * MPos) :=
  match square_of from, square_of to with
  | Some f, Some t => lift (fun st => pawn_push st f t) p
  | _, _ => None
  end.

(** A SAN of the fragment names the destination; the pawn comes from one
    or two squares behind it. *)
Definition mmove_san (p : MPos) (s : string) : option (string * MPos) :=
  match square_of s with
  | Some t =>
      lift (fun st =>
              let c := other (side st) in
              match pawn_push st (fst t, ahead c (snd t)) t with
              | Some r => Some r
              | None => pawn_push st (fst t, ahead c (ahead c (snd t))) t
              end) p
  | None => None
  end.

Definition mturn (p : MPos) : Color :=
  match decode (mfen p) with Some st => side st | None => White end.

(** [loadPgn] of the fragment: the move text only; the object is reset and
    the moves are played one by one, so a bad move leaves it half loaded. *)
Definition is_move_number (s : string) : bool :=
  match index_of "."%char s with Some _ => true | None => false end.

Fixpoint play_sans (g : ChessObj MPos) (l : list string) : ChessObj MPos * bool :=
  match l with
  | [] => (g, true)
  | s :: l' =>
      match mmove_san (position g) s with
      | Some (san, p') =>
          play_sans {| position := p'; past := (position g, san) :: past g |} l'
      | None => (g, false)
      end
  end.

Definition mloadPgn (g : ChessObj MPos) (pgn : string) : ChessObj MPos * bool :=
  play_sans {| position := mstart; past := [] |}
    (filter (fun s => negb (is_move_number s) && negb (String.eqb s ""))
            (split_on " " pgn)).

Fixpoint number_moves (n : nat) (l : list string) : list string :=
  match l with
  | [] => []
  | [a] => [(show_nat n ++ ". " ++ a)%string]
  | a :: b :: l' => (show_nat n ++ ". " ++ a ++ " " ++ b)%string :: number_moves (S n) l'
  end.

Definition mpgn (g : ChessObj MPos) : string :=
  String.concat " " (number_moves 1 (List.rev (map snd (past g)))).

Lemma mparse_fen_fen : forall p : MPos, mk_pos (mfen p) = Some p.
Proof.
  intros [s H]. unfold mk_pos, mfen. simpl.
  destruct (bool_dec (is_canonical s) true) as [H' | n].
  - rewrite (UIP_dec bool_dec H' H). reflexivity.
  - contradiction.
Qed.

Definition rules : Rules :=
  {| Pos := MPos;
     start := mstart;
     pos_fen := mfen;
     parse_fen := mk_pos;
     move_coord := mmove_coord;
     move_san := mmove_san;
     pos_turn := mturn;
     pos_over := fun _ _ => false;
     engine_loadPgn := mloadPgn;
     engine_pgn := mpgn;
     parse_fen_fen := mparse_fen_fen |}.

End MiniChess.

(** ** Scenarios run on MiniChess *)

Definition mini : Rules := MiniChess.rules.

(** The first render, then [e2e4], then [e7e5]. *)
Definition w_start : World mini := initialWorld mini.
Definition w_e4 : World mini := snd (makeMove mini "e2" "e4" None w_start).
Definition w_e4_e5 : World mini := snd (makeMove mini "e7" "e5" None w_e4).

(** A game loaded from the FEN after [e2e4], then [e7e5] and [d2d4]. *)
Definition w_loaded : World mini :=
  snd (loadFen mini "rnbqkbnr/pppppppp/8/8/4P3/8/PPPP1PPP/RNBQKBNR b KQkq - 0 1"
         w_start).
Definition w_loaded_e5 : World mini := snd (makeMove mini "e7" "e5" None w_loaded).
Definition w_loaded_e5_d4 : World mini :=
  snd (makeMove mini "d2" "d4" None w_loaded_e5).

Definition line_open : ChessLine :=
  {| description := "Open game"; moves := ["e2e4"; "e7e5"];
     moves_san := ["e4"; "e5"]; evaluation := None |}.

Definition line_reply : ChessLine :=
  {| description := "Symmetrical reply"; moves := ["e7e5"; "d2d4"];
     moves_san := ["e5"; "d4"]; evaluation := Some 20 |}.

Definition line_truncated : ChessLine :=
  {| description := "Ends on a malformed token";
     moves := ["e2e4"; "e7e5"; "zzzz"];
     moves_san := ["e4"; "e5"]; evaluation := None |}.

Definition line_skipping : ChessLine :=
  {| description := "Malformed token first"; moves := ["zzzz"; "e2e4"];
     moves_san := ["e4"]; evaluation := None |}.

Definition line_empty : ChessLine :=
  {| description := "No moves"; moves := []; moves_san := [];
     evaluation := None |}.

Arguments game {E} _.
Arguments gameState {E} _.
Arguments explorationState {E} _.
Arguments console {E} _.
Arguments alerts {E} _.
Arguments ret {E A} _ _.
Arguments engine_within_history {E} _.
Arguments same_react_state {E} _ _.

(** ** The components around the hooks *)

(** *** MoveHistory.tsx and the move list of GameViewer *)

(** One row of the move list; [white] and [black] are the array reads
    [moves[i]] and [moves[i + 1]], [None] being [undefined]. *)
Record MovePair := {
  moveNumber : Z;
  white : option string;
  black : option string
}.

(** [for (let i = i0; i < moves.length; i += 2) movePairs.push(...)],
    with one unit of fuel per turn of the loop. *)
Fixpoint movePairs_from (fuel : nat) (moves : list string) (i : nat)
  : list MovePair :=
  match fuel with
  | O => []
  | S fuel' =>
      if (i <? length moves)%nat then
        {| moveNumber := Z.of_nat (i / 2) + 1;
           white := nth_error moves i;
           black := nth_error moves (i + 1) |}
        :: movePairs_from fuel' moves (i + 2)
      else []
  end.

(** The loop never needs more turns than there are moves. *)
Definition movePairs (moves : list string) : list MovePair :=
  movePairs_from (length moves) moves 0.

(** JavaScript truthiness of a string that may be [undefined]. *)
Definition truthy (s : option string) : bool :=
  match s with
  | Some (String _ _) => true
  | _ => false
  end.

(** The buttons of one row, each with the index its [onClick] passes on
    and its label: the white one always, the black one when [pair.black]
    is truthy. *)
Definition rowButtons (pairIndex : nat) (row : MovePair)
  : list (Z * option string) :=
  (Z.of_nat pairIndex * 2, white row)
  :: (if truthy (black row)
      then [(Z.of_nat pairIndex * 2 + 1, black row)]
      else []).

(** [movePairs.map((pair, pairIndex) => ...)], from [pairIndex] on. *)
Fixpoint buttons_from (pairIndex : nat) (pairs : list MovePair)
  : list (Z * option string) :=
  match pairs with
  | [] => []
  | row :: rest => (rowButtons pairIndex row ++ buttons_from (S pairIndex) rest)%list
  end.

Definition historyButtons (moves : list string) : list (Z * option string) :=
  buttons_from 0 (movePairs moves).

(** The moves one row shows, left to right. *)
Definition row_moves (row : MovePair) : list string :=
  (match white row with Some a => [a] | None => [] end
   ++ match black row with Some b => [b] | None => [] end)%list.

(** *** LineCard.tsx *)

(** The identifiers the body of the loop of [formatMoves] declares, with
    their values: the number, and the two array reads. *)
Inductive JsValue :=
| JsNumber (n : Z)
| JsString (s : string)
| JsUndefined.

Definition formatMoves_scope (movesSan : list string) (i : nat)
  : list (string * JsValue) :=
  [("moveNumber", JsNumber (Z.of_nat (i / 2) + 1));
   ("whitMove", match nth_error movesSan i with
                | Some s => JsString s
                | None => JsUndefined
                end);
   ("blackMove", match nth_error movesSan (i + 1) with
                 | Some s => JsString s
                 | None => JsUndefined
                 end)].

(** Reading an identifier: one that no scope declares is a
    [ReferenceError]. *)
Fixpoint js_read (name : string) (scope : list (string * JsValue))
  : completion JsValue :=
  match scope with
  | [] => Thrown ("ReferenceError: " ++ name ++ " is not defined")
  | (n, v) :: rest => if String.eqb n name then Returned v else js_read name rest
  end.

Definition show_Z (n : Z) : string :=
  match n with
  | Z0 => "0"
  | Zpos p => DecimalString.NilZero.string_of_uint (Pos.to_uint p)
  | Zneg p => "-" ++ DecimalString.NilZero.string_of_uint (Pos.to_uint p)
  end.

(** [`${v}`]. *)
Definition js_show (v : JsValue) : string :=
  match v with
  | JsNumber n => show_Z n
  | JsString s => s
  | JsUndefined => "undefined"
  end.

Definition js_truthy (v : JsValue) : bool :=
  match v with
  | JsNumber n => negb (n =? 0)
  | JsString EmptyString => false
  | JsString _ => true
  | JsUndefined => false
  end.

(** The template of [formatMoves]:
    [`${moveNumber}. ${whiteMove}${blackMove ? ` ${blackMove}` : ''}`]. *)
Definition formatMoves_template (scope : list (string * JsValue))
  : completion string :=
  match js_read "moveNumber" scope with
  | Thrown e => Thrown e
  | Returned n =>
      match js_read "whiteMove" scope with
      | Thrown e => Thrown e
      | Returned w =>
          match js_read "blackMove" scope with
          | Thrown e => Thrown e
          | Returned b =>
              Returned (js_show n ++ ". " ++ js_show w
                        ++ (if js_truthy b then " " ++ js_show b else ""))
          end
      end
  end.

Fixpoint formatMoves_from (fuel : nat) (movesSan : list string) (i : nat)
  (pairs : list string) : completion (list string) :=
  match fuel with
  | O => Returned pairs
  | S fuel' =>
      if (i <? length movesSan)%nat then
        match formatMoves_template (formatMoves_scope movesSan i) with
        | Thrown e => Thrown e
        | Returned text =>
            formatMoves_from fuel' movesSan (i + 2) (pairs ++ [text])%list
        end
      else Returned pairs
  end.

Definition formatMoves (movesSan : list string) : completion string :=
  match formatMoves_from (length movesSan) movesSan 0 [] with
  | Thrown e => Thrown e
  | Returned pairs => Returned (String.concat " " pairs)
  end.

(** *** GameViewer, in AnalysisPanel.tsx *)

(** [GameData] of types/index.ts. *)
Record GameData := {
  game_id : Z;
  white_player_id : option Z;
  black_player_id : option Z;
  start_datetime : option string;
  end_datetime : option string;
  result : option string;
  pgn_data : string;
  source : option string;
  created_at : string
}.

(** [arr.slice(0, stop)] for any integer [stop]: a negative one counts
    from the end. *)
Definition js_slice_to {A} (stop : Z) (l : list A) : list A :=
  if stop <? 0 then firstn (Z.to_nat (Z.of_nat (length l) + stop)) l
  else firstn (Z.to_nat stop) l.

Section Viewer.

Variable E : Rules.

(** The engine object and the three React states of the viewer, and what
    it has reported on the console. *)
Record Viewer := {
  viewer_chess : ChessObj (Pos E);
  viewer_fen : string;
  viewer_moveHistory : list string;
  viewer_currentMoveIndex : Z;
  viewer_console : list string
}.

Definition initialViewer : Viewer :=
  {| viewer_chess := Chess_default E;
     viewer_fen := Chess_fen E (Chess_default E);
     viewer_moveHistory := [];
     viewer_currentMoveIndex := -1;
     viewer_console := [] |}.

(** [moves.forEach((move) => { chess.move(move); })] on the viewer's
    engine: the first illegal move throws, with the engine where it got. *)
Fixpoint chess_play (g : ChessObj (Pos E)) (l : list string)
  : ChessObj (Pos E) * bool :=
  match l with
  | [] => (g, true)
  | s :: l' =>
      match Chess_move_san E g s with
      | Some (_, g') => chess_play g' l'
      | None => (g, false)
      end
  end.

(** The effect on [game]: a reset for no game, else [loadPgn] and the
    three states read off the engine, or an error on the console. *)
Definition viewer_load (game : option GameData) (v : Viewer) : Viewer :=
  match game with
  | None =>
      {| viewer_chess := Chess_default E;
         viewer_fen := Chess_fen E (Chess_default E);
         viewer_moveHistory := [];
         viewer_currentMoveIndex := -1;
         viewer_console := viewer_console v |}
  | Some data =>
      match engine_loadPgn E (viewer_chess v) (pgn_data data) with
      | (g, true) =>
          {| viewer_chess := g;
             viewer_fen := Chess_fen E g;
             viewer_moveHistory := Chess_history E g;
             viewer_currentMoveIndex := Z.of_nat (length (Chess_history E g)) - 1;
             viewer_console := viewer_console v |}
      | (g, false) =>
          {| viewer_chess := g;
             viewer_fen := viewer_fen v;
             viewer_moveHistory := viewer_moveHistory v;
             viewer_currentMoveIndex := viewer_currentMoveIndex v;
             viewer_console := (viewer_console v ++ ["Error loading PGN:"])%list |}
      end
  end.

(** [gotoMove] of the viewer: no range check; [snap] is the render whose
    [moveHistory] the closure reads. *)
Definition viewer_gotoMove (snap : Viewer) (index : Z) (v : Viewer)
  : completion unit * Viewer :=
  match chess_play (Chess_default E)
          (js_slice_to (index + 1) (viewer_moveHistory snap)) with
  | (g, true) =>
      (Returned tt,
       {| viewer_chess := g;
          viewer_fen := Chess_fen E g;
          viewer_moveHistory := viewer_moveHistory v;
          viewer_currentMoveIndex := index;
          viewer_console := viewer_console v |})
  | (g, false) =>
      (Thrown "Invalid move",
       {| viewer_chess := g;
          viewer_fen := viewer_fen v;
          viewer_moveHistory := viewer_moveHistory v;
          viewer_currentMoveIndex := viewer_currentMoveIndex v;
          viewer_console := viewer_console v |})
  end.

Definition viewer_handlePrevious (snap v : Viewer) : completion unit * Viewer :=
  if viewer_currentMoveIndex snap >? -1
  then viewer_gotoMove snap (viewer_currentMoveIndex snap - 1) v
  else (Returned tt, v).

Definition viewer_handleNext (snap v : Viewer) : completion unit * Viewer :=
  if viewer_currentMoveIndex snap
     <? Z.of_nat (length (viewer_moveHistory snap)) - 1
  then viewer_gotoMove snap (viewer_currentMoveIndex snap + 1) v
  else (Returned tt, v).

Definition viewer_handleFirst (snap v : Viewer) : completion unit * Viewer :=
  viewer_gotoMove snap (-1) v.

Definition viewer_handleLast (snap v : Viewer) : completion unit * Viewer :=
  viewer_gotoMove snap (Z.of_nat (length (viewer_moveHistory snap)) - 1) v.

(** What can happen to the viewer: another game is selected, or one of
    its buttons is clicked; the move list offers the buttons of
    [historyButtons]. *)
Inductive viewer_event :=
| VSelect (game : option GameData)
| VFirst
| VPrevious
| VNext
| VLast
| VMove (index : Z).

Definition run_viewer_event (e : viewer_event) (v : Viewer)
  : completion unit * Viewer :=
  match e with
  | VSelect game => (Returned tt, viewer_load game v)
  | VFirst => viewer_handleFirst v v
  | VPrevious => viewer_handlePrevious v v
  | VNext => viewer_handleNext v v
  | VLast => viewer_handleLast v v
  | VMove i =>
      if existsb (Z.eqb i) (map fst (historyButtons (viewer_moveHistory v)))
      then viewer_gotoMove v i v
      else (Returned tt, v)
  end.

Definition is_select (e : viewer_event) : bool :=
  match e with
  | VSelect _ => true
  | _ => false
  end.

Definition run_viewer_events (l : list viewer_event) (v : Viewer) : Viewer :=
  fold_left (fun v e => snd (run_viewer_event e v)) l v.

Definition viewer_in_range (v : Viewer) : Prop :=
  -1 <= viewer_currentMoveIndex v
     <= Z.of_nat (length (viewer_moveHistory v)) - 1.

(** The board shows the replay of [moveHistory[0..currentMoveIndex]]. *)
Definition viewer_shows_prefix (v : Viewer) : Prop :=
  exists p : Pos E,
    replay_san E (start E)
      (firstn (Z.to_nat (viewer_currentMoveIndex v + 1)) (viewer_moveHistory v))
      = Some p /\
    viewer_fen v = pos_fen E p.

End Viewer.

Arguments viewer_chess {E} _.
Arguments viewer_fen {E} _.
Arguments viewer_moveHistory {E} _.
Arguments viewer_currentMoveIndex {E} _.
Arguments viewer_console {E} _.
Arguments viewer_in_range {E} _.
Arguments viewer_shows_prefix {E} _.

Section Interface.

Variable E : Rules.

(** *** What GamePage hands to its controls *)

Definition canUndo (w : World E) : bool :=
  currentMoveIndex (gameState w) >=? 0.

(** [explorationState.currentLine?.moves.length || 0]. *)
Definition totalPositions (w : World E) : Z :=
  match currentLine (explorationState w) with
  | Some l => Z.of_nat (length (moves l))
  | None => 0
  end.

Definition canGoPrevious (w : World E) : bool :=
  currentPosition (explorationState w) >? 0.

Definition canGoNext (w : World E) : bool :=
  currentPosition (explorationState w) <? totalPositions w - 1.

(** *** ChessBoard.tsx *)

Definition onDrop (disabled : bool) (onMove : string -> string -> Eff E bool)
  (sourceSquare targetSquare : string) : Eff E bool :=
  if disabled then ret false else onMove sourceSquare targetSquare.

(** The board as GamePage mounts it. *)
Definition ev_drop (sourceSquare targetSquare : string) : Eff E bool :=
  fire E (fun s =>
    onDrop (isActive (explorationState s)) (handleMove E s)
      sourceSquare targetSquare).

(** *** The events of the game page *)

Inductive event :=
| Drop (sourceSquare targetSquare : string)
| NewGame (confirmed : bool)
| Undo
| Resign (confirmed : bool)
| MoveClick (index : Z)
| Explore (line : ChessLine)
| Next
| Previous
| Exit.

Definition run_event (e : event) : Eff E unit :=
  match e with
  | Drop s t => bind E (ev_drop s t) (fun _ => ret tt)
  | NewGame c => ev_newGame E c
  | Undo => ev_undo E
  | Resign c => ev_resign E c
  | MoveClick i => ev_moveClick E i
  | Explore line => ev_explore E line
  | Next => ev_next E
  | Previous => ev_previous E
  | Exit => ev_exit E
  end.

(** A throw in a handler is reported and the page lives on with the
    state the handler left. *)
Definition run_events (l : list event) (w : World E) : World E :=
  fold_left (fun w e => snd (run_event e w)) l w.

Definition is_history_click (e : event) : bool :=
  match e with
  | MoveClick _ => true
  | _ => false
  end.

(** *** What the session keeps *)

(** The FEN shown is one the engine has printed. *)
Definition fen_printed (w : World E) : Prop :=
  exists p : Pos E, fen (gameState w) = pos_fen E p.

Definition index_in_range (w : World E) : Prop :=
  -1 <= currentMoveIndex (gameState w)
     <= Z.of_nat (length (moveHistory (gameState w))) - 1.

(** Inactive, the exploration state is the default one; active, it holds
    a line, a printed FEN and a position in range, and the game state
    shows an empty history. *)
Definition exploration_consistent (w : World E) : Prop :=
  if isActive (explorationState w) then
    exists (line : ChessLine) (p : Pos E),
      currentLine (explorationState w) = Some line /\
      savedFen (explorationState w) = pos_fen E p /\
      0 <= currentPosition (explorationState w)
        <= Z.max 0 (Z.of_nat (length (moves line)) - 1) /\
      moveHistory (gameState w) = [] /\
      currentMoveIndex (gameState w) = -1
  else explorationState w = initialExplorationState.

(** A [GameState] whose FEN is printed and whose index is in range, and
    a computation that leaves the [GameState] alone or writes such a
    one. *)
Definition gs_ok (s : ChessGameState) : Prop :=
  (exists p : Pos E, fen s = pos_fen E p) /\
  -1 <= currentMoveIndex s <= Z.of_nat (length (moveHistory s)) - 1.

Definition writes_ok {A} (c : Eff E A) : Prop :=
  forall w, gameState (snd (c w)) = gameState w \/ gs_ok (gameState (snd (c w))).

Definition session_ok (w : World E) : Prop :=
  fen_printed w /\ index_in_range w /\ exploration_consistent w.

(** The board shows the position the engine is on. *)
Definition board_in_step (w : World E) : Prop :=
  fen (gameState w) = Chess_fen E (game w).

(** The [GameState] that [updateGameState] reads off an engine object. *)
Definition engine_state (g : ChessObj (Pos E)) : ChessGameState :=
  {| fen := Chess_fen E g; moveHistory := Chess_history E g;
     currentMoveIndex := Z.of_nat (length (Chess_history E g)) - 1;
     isGameOver := Chess_isGameOver E g; turn := Chess_turn E g |}.

(** The [canGoNext] / [canGoPrevious] flag of a navigation button. *)
Definition can_go (d : direction) (w : World E) : bool :=
  match d with
  | Forward => canGoNext w
  | Backward => canGoPrevious w
  end.

(** What [exitExploration] would hand back. *)
Definition snapshot (w : World E) : Saved :=
  {| saved_fen := savedFen (explorationState w);
     saved_moveIndex := savedMoveIndex (explorationState w);
     saved_moveHistory := savedMoveHistory (explorationState w) |}.

(** *** The operations of useChessGame, called one after the other *)

(** One call of an operation that [useChessGame] returns and that acts on
    the game, made from the render that follows the call before it. *)
Inductive operation :=
| OpMakeMove (from to : string) (promotion : option string)
| OpUndoMove
| OpResetGame
| OpLoadFen (fenText : string)
| OpLoadPgn (pgnText : string)
| OpGotoMove (index : Z).

(** The world a call leaves behind, whatever it answers and also when it
    throws. *)
Definition run_operation (o : operation) (w : World E) : World E :=
  match o with
  | OpMakeMove from to promotion => snd (makeMove E from to promotion w)
  | OpUndoMove => snd (undoMove E w)
  | OpResetGame => snd (resetGame E w)
  | OpLoadFen fenText => snd (loadFen E fenText w)
  | OpLoadPgn pgnText => snd (loadPgn E pgnText w)
  | OpGotoMove index => snd (ev_gotoMove E index w)
  end.

Fixpoint run_operations (l : list operation) (w : World E) : World E :=
  match l with
  | [] => w
  | o :: l' => run_operations l' (run_operation o w)
  end.

(** Every [loadPgn] of the sequence answers [true]. *)
Fixpoint records_accepted (l : list operation) (w : World E) : Prop :=
  match l with
  | [] => True
  | o :: l' =>
      match o with
      | OpLoadPgn pgnText => fst (loadPgn E pgnText w) = Returned true
      | _ => True
      end /\ records_accepted l' (run_operation o w)
  end.

End Interface.

Arguments canUndo {E} _.
Arguments totalPositions {E} _.
Arguments canGoPrevious {E} _.
Arguments canGoNext {E} _.
Arguments fen_printed {E} _.
Arguments index_in_range {E} _.
Arguments exploration_consistent {E} _.
Arguments session_ok {E} _.
Arguments board_in_step {E} _.
Arguments snapshot {E} _.
Arguments can_go {E} _ _.

(** A stored game of two moves, and the viewer that has loaded it. *)
Definition game_two_moves : GameData :=
  {| game_id := 1; white_player_id := None; black_player_id := None;
     start_datetime := None; end_datetime := None; result := None;
     pgn_data := "1. e4 e5"; source := None; created_at := "2024-01-01" |}.

Definition viewer_two_moves : Viewer mini :=
  snd (run_viewer_event mini (VSelect (Some game_two_moves)) (initialViewer mini)).

(** A game resumed after an exploration: [e2e4], a look at the reply
    [e7e5], back to the game, then [e7e5] and [d2d4] on the board. *)
Definition w_resumed : World mini :=
  run_events mini
    [Drop "e2" "e4"; Explore line_reply; Exit; Drop "e7" "e5"; Drop "d2" "d4"]
    (initialWorld mini).

(** A move, the load of a record of two moves, then the load of a bare
    FEN. *)
Definition ops_bare_fen : list operation :=
  [OpMakeMove "e2" "e4" None;
   OpLoadPgn "1. e4 e5";
   OpLoadFen "rnbqkbnr/pppp1ppp/8/4p3/4P3/8/PPPP1PPP/RNBQKBNR w KQkq - 0 2"].

(** The first render after [loadPgn] has refused a record whose third
    move is illegal. *)
Definition w_refused_record : World mini :=
  snd (loadPgn mini "1. e4 e5 2. Ke3" w_start).

(** * Properties of the session *)

Section SessionFacts.

Local Open Scope list_scope.

Variable E : Rules.

Abbreviation Chess := (ChessObj (Pos E)).

(** ** The guards of GamePage *)

(** C3: while [explorationState.isActive] holds, the board move, undo,
    new game, resign and history click handlers change neither the
    [GameState] nor the engine nor the exploration state: the move handler
    answers [false], undo and history click do nothing, and new game and
    resign only show the guard message. *)
Theorem guards_reject_while_exploring
  (w : World E) (from to : string) (index : Z) (c1 c2 : bool) :
  isActive (explorationState w) = true ->
  ev_move E from to w = (Returned false, w) /\
  ev_undo E w = (Returned tt, w) /\
  ev_moveClick E index w = (Returned tt, w) /\
  ev_newGame E c1 w =
    (Returned tt,
     with_alerts E (alerts w ++ ["Please exit exploration mode first"]) w) /\
  ev_resign E c2 w =
    (Returned tt,
     with_alerts E (alerts w ++ ["Please exit exploration mode first"]) w) /\
  gameState (snd (ev_newGame E c1 w)) = gameState w /\
  gameState (snd (ev_resign E c2 w)) = gameState w.
Proof.
  intros active.
  unfold ev_move, ev_undo, ev_moveClick, ev_newGame, ev_resign, fire,
    handleMove, handleUndo, handleMoveClick, handleNewGame, handleResign.
  rewrite active.
  repeat split.
Qed.

(** ** Failing operations of useChessGame *)

(** C6: an illegal move makes [makeMove] answer [false], an invalid FEN
    makes [loadFen] answer [false], and an invalid game record makes
    [loadPgn] answer [false]; none of them throws, and the [GameState] is
    the one before the call (for [makeMove] and [loadFen] the whole world
    is). *)
Theorem failed_operations_keep_state
  (w : World E) (from to : string) (promotion : option string)
  (fenText pgnText : string) :
  move_coord E (position (game w)) from to (Some (promotion_or_q promotion)) = None ->
  parse_fen E fenText = None ->
  snd (engine_loadPgn E (game w) pgnText) = false ->
  makeMove E from to promotion w = (Returned false, w) /\
  loadFen E fenText w = (Returned false, w) /\
  fst (loadPgn E pgnText w) = Returned false /\
  gameState (snd (loadPgn E pgnText w)) = gameState w.
Proof.
  intros illegal badfen badpgn.
  repeat split.
  - unfold makeMove, try_catch, bind, game_move, Chess_move.
    rewrite illegal. reflexivity.
  - unfold loadFen, try_catch, bind, game_load, Chess_load.
    rewrite badfen. reflexivity.
  - unfold loadPgn, try_catch, bind, game_loadPgn.
    destruct (engine_loadPgn E (game w) pgnText) as [g' ok].
    simpl in badpgn. subst ok. reflexivity.
  - unfold loadPgn, try_catch, bind, game_loadPgn.
    destruct (engine_loadPgn E (game w) pgnText) as [g' ok].
    simpl in badpgn. subst ok. reflexivity.
Qed.

(** ** Undo *)

Lemma Chess_history_nil (g : Chess) : Chess_history E g = [] -> past g = [].
Proof.
  unfold Chess_history. intros H.
  destruct (past g) as [| [p s] rest]; [reflexivity |].
  simpl in H. apply app_eq_nil in H. destruct H as [_ H]. discriminate H.
Qed.

(** With an empty move history and an engine that holds no more moves than
    the history records, the engine has nothing to take back: [undoMove]
    answers [false] and leaves the world as it is. *)
Lemma undoMove_nothing_to_undo (w : World E) :
  moveHistory (gameState w) = [] ->
  engine_within_history w ->
  undoMove E w = (Returned false, w).
Proof.
  intros empty within. unfold engine_within_history in within.
  rewrite empty in within. simpl in within.
  assert (Chess_history E (game w) = []) as H.
  { destruct (Chess_history E (game w)); [reflexivity | simpl in within; lia]. }
  apply Chess_history_nil in H.
  unfold undoMove, bind, game_undo, Chess_undo. rewrite H. reflexivity.
Qed.

(** ** History navigation *)

Lemma replay_san_prefix (l : list string) :
  forall (p : Pos E) (n : nat),
    replay_san E p l <> None -> replay_san E p (firstn n l) <> None.
Proof.
  induction l as [| s l IH]; intros p n H.
  - destruct n; simpl; discriminate.
  - destruct n as [| n]; simpl; [discriminate |].
    simpl in H. destruct (move_san E p s) as [[san p'] |].
    + apply IH. exact H.
    + exact H.
Qed.

(** The replay loop of [gotoMove] on a list that replays: it returns, and
    the engine ends on the replayed position with one more move per item. *)
Lemma gotoMove_loop (l : list string) :
  forall (w : World E) (p : Pos E),
    replay_san E (position (game w)) l = Some p ->
    exists w',
      forEach E l (fun move (_ : unit) =>
                     bind E (game_move_san E move) (fun _ => ret tt)) tt w
      = (Returned tt, w') /\
      position (game w') = p /\
      length (past (game w')) = (length (past (game w)) + length l)%nat /\
      same_react_state w w'.
Proof.
  induction l as [| s l IH]; intros w p H; simpl in H.
  - exists w. simpl. inversion H. unfold same_react_state.
    rewrite Nat.add_0_r. repeat split.
  - destruct (move_san E (position (game w)) s) as [[san p'] |] eqn:Hm;
      [| discriminate].
    set (g1 := {| position := p'; past := (position (game w), san) :: past (game w) |}).
    destruct (IH (with_game E g1 w) p H) as (w' & Hrun & Hp & Hlen & Hsame).
    exists w'. split; [| split; [exact Hp | split]].
    + simpl. unfold bind at 1. unfold bind at 1.
      unfold game_move_san, Chess_move_san. rewrite Hm. exact Hrun.
    + rewrite Hlen. simpl. lia.
    + exact Hsame.
Qed.

(** C4 (amended): for [k] in [-1 .. len-1] such that [moveHistory[0..k]]
    is a sequence of legal moves from the initial position, [gotoMove k]
    returns with [fen] the print of the position reached by replaying
    [moveHistory[0..k]] from the initial position, with
    [currentMoveIndex = k] and with [moveHistory] untouched; for every
    [k] outside [-1 .. len-1] it changes nothing, whatever the history. *)
Theorem gotoMove_replays_prefix (w : World E) (k : Z) :
  (-1 <= k < Z.of_nat (length (moveHistory (gameState w))) ->
   replay_san E (start E) (firstn (Z.to_nat (k + 1)) (moveHistory (gameState w)))
     <> None ->
   exists (p : Pos E) (w' : World E),
     replay_san E (start E) (firstn (Z.to_nat (k + 1)) (moveHistory (gameState w)))
       = Some p /\
     ev_gotoMove E k w = (Returned tt, w') /\
     fen (gameState w') = pos_fen E p /\
     currentMoveIndex (gameState w') = k /\
     moveHistory (gameState w') = moveHistory (gameState w)) /\
  (k < -1 \/ Z.of_nat (length (moveHistory (gameState w))) <= k ->
   ev_gotoMove E k w = (Returned tt, w)).
Proof.
  split.
  - intros range legal.
    destruct (replay_san E (start E)
                (firstn (Z.to_nat (k + 1)) (moveHistory (gameState w))))
      as [p |] eqn:Hp; [| congruence].
    destruct (gotoMove_loop _ (with_game E (Chess_default E) w) p Hp)
      as (w1 & Hrun & Hpos & _ & Hsame).
    exists p. eexists. split; [reflexivity |].
    unfold ev_gotoMove, fire, gotoMove.
    replace (k <? -1) with false by (symmetry; apply Z.ltb_ge; lia).
    replace (k >=? Z.of_nat (length (moveHistory (gameState w)))) with false
      by (symmetry; rewrite Z.geb_leb; apply Z.leb_gt; lia).
    cbn [orb].
    unfold bind at 1. unfold game_reset, set_game.
    unfold bind at 1. unfold slice0. cbv beta. rewrite Hrun.
    unfold bind, get_game, setGameState. simpl.
    unfold Chess_fen. rewrite Hpos. repeat split.
  - intros out.
    unfold ev_gotoMove, fire, gotoMove.
    destruct out as [lo | hi].
    + replace (k <? -1) with true by (symmetry; apply Z.ltb_lt; lia).
      reflexivity.
    + replace (k >=? Z.of_nat (length (moveHistory (gameState w)))) with true
        by (symmetry; rewrite Z.geb_leb; apply Z.leb_le; lia).
      rewrite orb_true_r. reflexivity.
Qed.

(** ** The line loops of useGameState *)

Lemma loadFen_printed (p : Pos E) (w : World E) :
  loadFen E (pos_fen E p) w =
  (Returned true,
   with_gameState E (loaded_state E p)
     (with_game E {| position := p; past := [] |} w)).
Proof.
  unfold loadFen, try_catch, bind, game_load, Chess_load.
  rewrite parse_fen_fen. reflexivity.
Qed.

Lemma play_tokens_legal (l : list string) :
  forall p q : Pos E, apply_all E p l = Some q -> play_tokens E p l = q.
Proof.
  induction l as [| m l IH]; intros p q H; simpl in *.
  - congruence.
  - destruct (apply_token E p m) as [p' |]; [apply IH; exact H | discriminate].
Qed.

Lemma play_tokens_all_rejected (l : list string) (p : Pos E) :
  (forall m, In m l -> apply_token E p m = None) -> play_tokens E p l = p.
Proof.
  induction l as [| m l IH]; intros H; simpl.
  - reflexivity.
  - rewrite (H m (or_introl eq_refl)). apply IH.
    intros m' Hin. apply H. right. exact Hin.
Qed.

Lemma play_tokens_app (l1 l2 : list string) :
  forall p : Pos E,
    play_tokens E p (l1 ++ l2) = play_tokens E (play_tokens E p l1) l2.
Proof.
  induction l1 as [| m l1 IH]; intros p; simpl.
  - reflexivity.
  - destruct (apply_token E p m); apply IH.
Qed.

Lemma rejected_tokens_app (l1 l2 : list string) :
  forall p : Pos E,
    rejected_tokens E p (l1 ++ l2)
    = rejected_tokens E p l1 ++ rejected_tokens E (play_tokens E p l1) l2.
Proof.
  induction l1 as [| m l1 IH]; intros p; simpl.
  - reflexivity.
  - destruct (apply_token E p m); [apply IH | rewrite IH; reflexivity].
Qed.

Lemma rejected_tokens_legal (l : list string) :
  forall p q : Pos E, apply_all E p l = Some q -> rejected_tokens E p l = [].
Proof.
  induction l as [| m l IH]; intros p q H; simpl in *.
  - reflexivity.
  - destruct (apply_token E p m) as [p' |]; [eapply IH; exact H | discriminate].
Qed.

Lemma line_loop (l : list string) :
  forall (t : Chess) (w : World E),
  exists (t' : Chess) (w' : World E),
    forEach E l (try_line_move E) t w = (Returned t', w') /\
    line_loop_result E t w l t' w'.
Proof.
  induction l as [| m l IH]; intros t w.
  - exists t, w. split; [reflexivity |].
    unfold line_loop_result. simpl. rewrite app_nil_r. repeat split.
  - unfold line_loop_result. cbn [forEach play_tokens rejected_tokens].
    unfold bind at 1.
    unfold try_line_move at 1, try_catch, temp_move, Chess_move.
    unfold apply_token.
    destruct (move_coord E (position t) (js_substring 0 2 m)
                (js_substring 2 4 m) (promotion_of m)) as [[san p'] |].
    + cbn. apply IH.
    + cbn.
      destruct (IH t (with_console E (console w ++ [m]) w))
        as (t' & w' & Hrun & Hp & Hc & Hg & Hs & Hx & Ha).
      exists t', w'. split; [exact Hrun |].
      cbn in Hc, Hg, Hs, Hx, Ha.
      rewrite Hc, <- app_assoc. repeat split; assumption.
Qed.

Lemma skipn_nth_error {A} (l : list A) :
  forall (i : nat) (a : A),
    nth_error l i = Some a -> skipn i l = a :: skipn (S i) l.
Proof.
  induction l as [| b l IH]; intros i a H.
  - destruct i; discriminate.
  - destruct i as [| i]; simpl in *.
    + congruence.
    + apply IH. exact H.
Qed.

(** The counting loop reads exactly the items of a slice. *)
Lemma replay_loop_slice (line : ChessLine) (n : nat) :
  forall (i : nat) (t : Chess) (w : World E),
    (i + n <= length (moves line))%nat ->
    for_from E n (Z.of_nat i)
      (fun i tempGame =>
         match (if i <? 0 then None else nth_error (moves line) (Z.to_nat i)) with
         | None => throw E "TypeError"
         | Some moveUci => try_line_move E moveUci tempGame
         end) t w
    = forEach E (firstn n (skipn i (moves line))) (try_line_move E) t w.
Proof.
  induction n as [| n IH]; intros i t w Hle.
  - reflexivity.
  - assert (i < length (moves line))%nat as Hi by lia.
    destruct (nth_error (moves line) i) as [m |] eqn:Hm;
      [| apply nth_error_None in Hm; lia].
    rewrite (skipn_nth_error _ _ _ Hm).
    cbn [for_from firstn forEach]. unfold bind.
    replace (Z.of_nat i <? 0) with false by (symmetry; apply Z.ltb_ge; lia).
    rewrite Nat2Z.id, Hm.
    destruct (try_line_move E m t w) as [[t' | e] w']; [| reflexivity].
    replace (Z.of_nat i + 1) with (Z.of_nat (S i)) by lia.
    apply IH. lia.
Qed.

Lemma replay_upto_run (line : ChessLine) (pos : Z) (t : Chess) (w : World E) :
  -1 <= pos < Z.of_nat (length (moves line)) ->
  replay_upto E line pos t w
  = forEach E (firstn (Z.to_nat (pos + 1)) (moves line)) (try_line_move E) t w.
Proof.
  intros range. unfold replay_upto.
  change 0 with (Z.of_nat 0).
  rewrite replay_loop_slice by (simpl; lia).
  reflexivity.
Qed.

(** The world one event after [handleExplore]. *)
Lemma ev_explore_run (w : World E) (line : ChessLine) (p0 : Pos E) :
  fen (gameState w) = pos_fen E p0 ->
  exists w' : World E,
    ev_explore E line w = (Returned tt, w') /\
    game w' = {| position := play_tokens E p0 (moves line); past := [] |} /\
    gameState w' = loaded_state E (play_tokens E p0 (moves line)) /\
    explorationState w' =
      {| isActive := true; currentLine := Some line; currentPosition := 0;
         savedFen := fen (gameState w);
         savedMoveIndex := currentMoveIndex (gameState w);
         savedMoveHistory := moveHistory (gameState w) |} /\
    console w' = console w ++ rejected_tokens E p0 (moves line) /\
    alerts w' = alerts w.
Proof.
  intros Hfen.
  unfold ev_explore, fire, handleExplore.
  unfold bind at 1. unfold enterExploration, setExplorationState.
  unfold bind at 1. unfold new_Chess, Chess_load.
  assert (parse_fen E (fen (gameState w)) = Some p0) as Hparse
    by (rewrite Hfen; apply parse_fen_fen).
  rewrite Hparse. unfold ret at 1. cbv beta iota.
  set (w0 := with_explorationState E _ w).
  destruct (line_loop (moves line) {| position := p0; past := [] |} w0)
    as (t' & w1 & Hrun & Hp & Hc & Hg & Hs & Hx & Ha).
  unfold bind at 1. rewrite Hrun.
  unfold bind at 1. unfold Chess_fen. rewrite loadFen_printed.
  eexists. split; [reflexivity |].
  simpl in *. rewrite Hp, Hc, Hx, Ha. repeat split.
Qed.

(** C2 (amended): when the token at step [i] is rejected after a legal
    prefix, [handleExplore] returns without throwing, reports the token on
    the console and goes on with the later tokens from the position of the
    prefix: the position shown is the one reached from there by the later
    tokens that are accepted, and it is the position of the prefix when
    none of them is. *)
Theorem explore_passes_over_illegal_token
  (w : World E) (line : ChessLine) (p0 p : Pos E)
  (pre post : list string) (bad : string) :
  fen (gameState w) = pos_fen E p0 ->
  moves line = pre ++ bad :: post ->
  apply_all E p0 pre = Some p ->
  apply_token E p bad = None ->
  exists w' : World E,
    ev_explore E line w = (Returned tt, w') /\
    fen (gameState w') = pos_fen E (play_tokens E p post) /\
    ((forall m, In m post -> apply_token E p m = None) ->
     fen (gameState w') = pos_fen E p) /\
    console w' = console w ++ bad :: rejected_tokens E p post.
Proof.
  intros Hfen Hsplit Hpre Hbad.
  destruct (ev_explore_run w line p0 Hfen)
    as (w' & Hrun & _ & Hs & _ & Hc & _).
  assert (play_tokens E p0 (moves line) = play_tokens E p post) as Hplay.
  { rewrite Hsplit, play_tokens_app, (play_tokens_legal _ _ _ Hpre).
    simpl. rewrite Hbad. reflexivity. }
  exists w'. split; [exact Hrun |]. split; [| split].
  - rewrite Hs, Hplay. reflexivity.
  - intros Hnone. rewrite Hs, Hplay, play_tokens_all_rejected by exact Hnone.
    reflexivity.
  - rewrite Hc, Hsplit, rejected_tokens_app.
    rewrite (rejected_tokens_legal _ _ _ Hpre), (play_tokens_legal _ _ _ Hpre).
    simpl. rewrite Hbad. reflexivity.
Qed.

(** The tail shared by the two navigation handlers: a scratch object on
    the saved FEN, the counting loop, and [loadFen] of the outcome. *)
Lemma show_prefix_run (line : ChessLine) (pos : Z) (f : string)
  (p0 : Pos E) (w0 : World E) :
  f = pos_fen E p0 ->
  -1 <= pos < Z.of_nat (length (moves line)) ->
  exists w' : World E,
    bind E (new_Chess E f) (fun tempGame =>
      bind E (replay_upto E line pos tempGame) (fun tempGame =>
        bind E (loadFen E (Chess_fen E tempGame)) (fun _ => ret tt))) w0
    = (Returned tt, w') /\
    gameState w' =
      loaded_state E (play_tokens E p0 (firstn (Z.to_nat (pos + 1)) (moves line))) /\
    explorationState w' = explorationState w0.
Proof.
  intros Hf range. subst f.
  unfold bind at 1. unfold new_Chess, Chess_load.
  rewrite parse_fen_fen. unfold ret at 1. cbv beta iota.
  unfold bind at 1. rewrite replay_upto_run by exact range.
  destruct (line_loop (firstn (Z.to_nat (pos + 1)) (moves line))
              {| position := p0; past := [] |} w0)
    as (t' & w1 & Hrun & Hp & Hc & Hg & Hs & Hx & Ha).
  rewrite Hrun. unfold bind at 1. unfold Chess_fen. rewrite loadFen_printed.
  eexists. split; [reflexivity |].
  simpl in *. rewrite Hp, Hx. split; reflexivity.
Qed.


(** ** The exploration state during an episode *)

Section Preserved.

Variable P : World E -> Prop.

Lemma preserves_ret {A} (a : A) : preserves E P (ret a).
Proof. intros w H. exact H. Qed.

Lemma preserves_throw {A} (e : string) : preserves E P (@throw E A e).
Proof. intros w H. exact H. Qed.

Lemma preserves_bind {A B} (c : Eff E A) (k : A -> Eff E B) :
  preserves E P c -> (forall a, preserves E P (k a)) ->
  preserves E P (bind E c k).
Proof.
  intros Hc Hk w H. unfold bind. specialize (Hc w H).
  destruct (c w) as [[a | e] w1]; simpl in *.
  - apply Hk. exact Hc.
  - exact Hc.
Qed.

Lemma preserves_try_catch {A} (c : Eff E A) (h : string -> Eff E A) :
  preserves E P c -> (forall e, preserves E P (h e)) ->
  preserves E P (try_catch E c h).
Proof.
  intros Hc Hh w H. unfold try_catch. specialize (Hc w H).
  destruct (c w) as [[a | e] w1]; simpl in *.
  - exact Hc.
  - apply Hh. exact Hc.
Qed.

Lemma preserves_forEach {A S} (body : A -> S -> Eff E S) (l : list A) :
  (forall a s, preserves E P (body a s)) ->
  forall s, preserves E P (forEach E l body s).
Proof.
  intros Hbody. induction l as [| a l IH]; intros s; cbn [forEach].
  - apply preserves_ret.
  - apply preserves_bind; [apply Hbody | intros s'; apply IH].
Qed.

Lemma preserves_for_from {S} (body : Z -> S -> Eff E S) (n : nat) :
  (forall i s, preserves E P (body i s)) ->
  forall i s, preserves E P (for_from E n i body s).
Proof.
  intros Hbody. induction n as [| n IH]; intros i s; cbn [for_from].
  - apply preserves_ret.
  - apply preserves_bind; [apply Hbody | intros a; apply IH].
Qed.

(** [P] does not look at the console, and [loadFen] keeps it. *)
Hypothesis P_console :
  forall w c, P w -> P (with_console E c w).
Hypothesis P_loadFen : forall f, preserves E P (loadFen E f).

Lemma preserves_new_Chess (f : string) : preserves E P (new_Chess E f).
Proof.
  unfold new_Chess. destruct (Chess_load E f);
    [apply preserves_ret | apply preserves_throw].
Qed.

Lemma preserves_try_line_move (m : string) (t : Chess) :
  preserves E P (try_line_move E m t).
Proof.
  intros w H. unfold try_line_move, try_catch, temp_move.
  destruct (Chess_move E t _ _ _) as [[san t'] |]; simpl.
  - exact H.
  - apply P_console. exact H.
Qed.

Lemma preserves_replay_upto (line : ChessLine) (pos : Z) (t : Chess) :
  preserves E P (replay_upto E line pos t).
Proof.
  unfold replay_upto. apply preserves_for_from. intros i s.
  destruct (if i <? 0 then None else nth_error (moves line) (Z.to_nat i)).
  - apply preserves_try_line_move.
  - apply preserves_throw.
Qed.

Lemma preserves_show_prefix (line : ChessLine) (pos : Z) (f : string) :
  preserves E P
    (bind E (new_Chess E f) (fun tempGame =>
       bind E (replay_upto E line pos tempGame) (fun tempGame =>
         bind E (loadFen E (Chess_fen E tempGame)) (fun _ => ret tt)))).
Proof.
  apply preserves_bind; [apply preserves_new_Chess |]. intros t.
  apply preserves_bind; [apply preserves_replay_upto |]. intros t'.
  apply preserves_bind; [apply P_loadFen |]. intros b. apply preserves_ret.
Qed.

End Preserved.

Lemma loadFen_keeps_exploration (x : ExplorationState) (f : string) :
  preserves E (fun w => explorationState w = x) (loadFen E f).
Proof.
  intros w H. unfold loadFen, try_catch, bind, game_load.
  destruct (Chess_load E f); exact H.
Qed.

Lemma loadFen_keeps_sandboxed (f0 : string) (k : Z) (f : string) :
  preserves E (sandboxed E f0 k) (loadFen E f).
Proof.
  intros w H. unfold loadFen, try_catch, bind, game_load.
  destruct (Chess_load E f) as [g |] eqn:Hg; [| exact H].
  unfold Chess_load in Hg. destruct (parse_fen E f); [| discriminate].
  destruct H as (Hf & Hk & Hh). inversion Hg. repeat split; assumption.
Qed.

(** The tail of a navigation click keeps the exploration state. *)
Lemma show_prefix_keeps_exploration (line : ChessLine) (pos : Z) (f : string)
  (w : World E) :
  explorationState
    (snd (bind E (new_Chess E f) (fun tempGame =>
            bind E (replay_upto E line pos tempGame) (fun tempGame =>
              bind E (loadFen E (Chess_fen E tempGame)) (fun _ => ret tt))) w))
  = explorationState w.
Proof.
  apply (preserves_show_prefix (fun w' => explorationState w' = explorationState w)).
  - intros w1 c H. exact H.
  - intros f'. apply loadFen_keeps_exploration.
  - reflexivity.
Qed.

(** A click on next or previous leaves the exploration state as it was
    or as the hook of the same name makes it. *)
Lemma ev_next_exploration (w : World E) :
  explorationState (snd (ev_next E w)) = explorationState w \/
  explorationState (snd (ev_next E w)) = explorationState (snd (nextPosition E w)).
Proof.
  unfold ev_next, fire, handleExplorationNext.
  destruct (currentLine (explorationState w)) as [line |]; [| left; reflexivity].
  destruct (_ >=? _); [left; reflexivity |].
  right. unfold bind at 1.
  change (nextPosition E w) with
    (Returned tt, snd (nextPosition E w)). cbv iota.
  apply show_prefix_keeps_exploration.
Qed.

Lemma ev_previous_exploration (w : World E) :
  explorationState (snd (ev_previous E w)) = explorationState w \/
  explorationState (snd (ev_previous E w))
    = explorationState (snd (previousPosition E w)).
Proof.
  unfold ev_previous, fire, handleExplorationPrevious.
  destruct (currentLine (explorationState w)) as [line |]; [| left; reflexivity].
  destruct (_ <=? _); [left; reflexivity |].
  right. unfold bind at 1.
  change (previousPosition E w) with
    (Returned tt, snd (previousPosition E w)). cbv iota.
  apply show_prefix_keeps_exploration.
Qed.

Lemma nextPosition_browsing (line : ChessLine) (w : World E) :
  browsing E line w -> browsing E line (snd (nextPosition E w)).
Proof.
  intros (Hl & Hb). unfold browsing. simpl. rewrite Hl.
  repeat split; try assumption; unfold length_or_1;
    destruct (Z.eqb_spec (Z.of_nat (length (moves line))) 0); lia.
Qed.

Lemma previousPosition_browsing (line : ChessLine) (w : World E) :
  browsing E line w -> browsing E line (snd (previousPosition E w)).
Proof.
  intros (Hl & Hb). unfold browsing. simpl.
  repeat split; try assumption; lia.
Qed.

Lemma browsing_ext (line : ChessLine) (w w' : World E) :
  explorationState w' = explorationState w ->
  browsing E line w -> browsing E line w'.
Proof. unfold browsing. intros ->. trivial. Qed.

Lemma run_browse_browsing (line : ChessLine) (b : browse) (w : World E) :
  browsing E line w -> browsing E line (run_browse E b w).
Proof.
  intros H. destruct b; simpl.
  - apply nextPosition_browsing, H.
  - apply previousPosition_browsing, H.
  - destruct (ev_next_exploration w) as [Hx | Hx];
      eapply browsing_ext; try exact Hx;
      [exact H | apply nextPosition_browsing, H].
  - destruct (ev_previous_exploration w) as [Hx | Hx];
      eapply browsing_ext; try exact Hx;
      [exact H | apply previousPosition_browsing, H].
Qed.

Lemma run_browses_browsing (line : ChessLine) (l : list browse) :
  forall w : World E, browsing E line w -> browsing E line (run_browses E l w).
Proof.
  unfold run_browses.
  induction l as [| b l IH]; intros w H; simpl.
  - exact H.
  - apply IH, run_browse_browsing, H.
Qed.

(** Whatever becomes of the line, [handleExplore] leaves the exploration
    state that [enterExploration] has set. *)
Lemma ev_explore_exploration (w : World E) (line : ChessLine) :
  explorationState (snd (ev_explore E line w)) =
  {| isActive := true; currentLine := Some line; currentPosition := 0;
     savedFen := fen (gameState w);
     savedMoveIndex := currentMoveIndex (gameState w);
     savedMoveHistory := moveHistory (gameState w) |}.
Proof.
  unfold ev_explore, fire, handleExplore.
  unfold bind at 1. unfold enterExploration, setExplorationState.
  set (w0 := with_explorationState E _ w).
  change (explorationState (snd (bind E (new_Chess E (fen (gameState w)))
            (fun tempGame => bind E (forEach E (moves line) (try_line_move E) tempGame)
               (fun tempGame => bind E (loadFen E (Chess_fen E tempGame))
                  (fun _ => ret tt))) w0)) = explorationState w0).
  apply (preserves_bind (fun w' => explorationState w' = explorationState w0));
    [| | reflexivity].
  - apply preserves_new_Chess.
  - intros t. apply preserves_bind.
    + apply preserves_forEach. intros m s.
      apply preserves_try_line_move. intros w1 c H. exact H.
    + intros t'. apply preserves_bind; [apply loadFen_keeps_exploration |].
      intros b. apply preserves_ret.
Qed.

(** C8 (amended): from [handleExplore] on, through any sequence of
    [nextPosition], [previousPosition] and next/previous clicks,
    [currentPosition] stays within [0 .. max 0 (len - 1)], which is
    [0 .. len - 1] for a line with at least one move and the single value
    [0] for a line without moves. *)
Theorem currentPosition_stays_in_range
  (w : World E) (line : ChessLine) (steps : list browse) :
  0 <= currentPosition
         (explorationState (run_browses E steps (snd (ev_explore E line w))))
    <= Z.max 0 (Z.of_nat (length (moves line)) - 1).
Proof.
  assert (browsing E line (snd (ev_explore E line w))) as H1.
  { unfold browsing. rewrite ev_explore_exploration. simpl. split; [reflexivity | lia]. }
  apply (run_browses_browsing line steps) in H1.
  destruct H1 as (_ & Hb). exact Hb.
Qed.

(** ** Leaving the sandbox *)

Lemma nextPosition_sandboxed (f : string) (k : Z) (w : World E) :
  sandboxed E f k w -> sandboxed E f k (snd (nextPosition E w)).
Proof. intros H. exact H. Qed.

Lemma previousPosition_sandboxed (f : string) (k : Z) (w : World E) :
  sandboxed E f k w -> sandboxed E f k (snd (previousPosition E w)).
Proof. intros H. exact H. Qed.

Lemma show_prefix_sandboxed (f0 : string) (k : Z) (line : ChessLine) (pos : Z)
  (f : string) :
  preserves E (sandboxed E f0 k)
    (bind E (new_Chess E f) (fun tempGame =>
       bind E (replay_upto E line pos tempGame) (fun tempGame =>
         bind E (loadFen E (Chess_fen E tempGame)) (fun _ => ret tt)))).
Proof.
  apply preserves_show_prefix.
  - intros w c H. exact H.
  - intros f'. apply loadFen_keeps_sandboxed.
Qed.

Lemma run_browse_sandboxed (f : string) (k : Z) (b : browse) (w : World E) :
  sandboxed E f k w -> sandboxed E f k (run_browse E b w).
Proof.
  intros H. destruct b; simpl.
  - exact H.
  - exact H.
  - unfold ev_next, fire, handleExplorationNext.
    destruct (currentLine (explorationState w)) as [line |]; [| exact H].
    destruct (_ >=? _); [exact H |].
    unfold bind at 1.
    change (nextPosition E w) with (Returned tt, snd (nextPosition E w)).
    cbv iota. apply show_prefix_sandboxed. exact H.
  - unfold ev_previous, fire, handleExplorationPrevious.
    destruct (currentLine (explorationState w)) as [line |]; [| exact H].
    destruct (_ <=? _); [exact H |].
    unfold bind at 1.
    change (previousPosition E w) with (Returned tt, snd (previousPosition E w)).
    cbv iota. apply show_prefix_sandboxed. exact H.
Qed.

Lemma run_browses_sandboxed (f : string) (k : Z) (l : list browse) :
  forall w : World E, sandboxed E f k w -> sandboxed E f k (run_browses E l w).
Proof.
  unfold run_browses.
  induction l as [| b l IH]; intros w H; simpl.
  - exact H.
  - apply IH, run_browse_sandboxed, H.
Qed.

(** What [handleExitExploration] makes of a sandboxed world: [loadFen]
    has emptied the history, so [gotoMove] of the saved index finds
    nothing to go to; it only acts on [-1], by resetting the board. *)
Lemma ev_exit_run (w : World E) (p0 : Pos E) (k : Z) :
  sandboxed E (pos_fen E p0) k w ->
  exists w' : World E,
    ev_exit E w = (Returned tt, w') /\
    moveHistory (gameState w') = [] /\
    currentMoveIndex (gameState w') = -1 /\
    fen (gameState w') = (if k =? -1 then pos_fen E (start E) else pos_fen E p0) /\
    explorationState w' = initialExplorationState.
Proof.
  intros (Hf & Hk & Hh).
  unfold ev_exit, fire, handleExitExploration, exitExploration.
  unfold bind at 1. unfold bind at 1. unfold setExplorationState, ret at 1.
  cbv beta iota. cbn [saved_fen saved_moveIndex].
  unfold bind at 1. rewrite Hf, loadFen_printed, Hk.
  unfold gotoMove. rewrite Hh. cbn [length Z.of_nat].
  destruct (Z.eqb_spec k (-1)) as [-> | Hne].
  - cbn. eexists. split; [reflexivity |]. repeat split.
  - destruct (Z.ltb_spec k (-1)); cbn [orb].
    + eexists. split; [reflexivity |]. repeat split.
    + replace (k >=? 0) with true
        by (symmetry; rewrite Z.geb_leb; apply Z.leb_le; lia).
      eexists. split; [reflexivity |]. repeat split.
Qed.

(** After any exploration episode the recorded history is empty and the
    index is [-1], whatever they were on entry; the FEN is the saved one
    unless the saved index was [-1], where it is the initial position. *)
Lemma exit_forgets_history
  (w : World E) (line : ChessLine) (p0 : Pos E) (steps : list browse) :
  fen (gameState w) = pos_fen E p0 ->
  exists w' : World E,
    ev_exit E (run_browses E steps (snd (ev_explore E line w))) = (Returned tt, w') /\
    moveHistory (gameState w') = [] /\
    currentMoveIndex (gameState w') = -1 /\
    fen (gameState w') =
      (if currentMoveIndex (gameState w) =? -1 then pos_fen E (start E)
       else fen (gameState w)) /\
    explorationState w' = initialExplorationState.
Proof.
  intros Hfen.
  destruct (ev_explore_run w line p0 Hfen) as (w1 & Hrun & _ & Hs & Hx & _).
  rewrite Hrun. cbn [snd].
  assert (sandboxed E (pos_fen E p0) (currentMoveIndex (gameState w)) w1) as H1.
  { unfold sandboxed. rewrite Hx, Hs. cbn. repeat split. exact Hfen. }
  apply (run_browses_sandboxed _ _ steps) in H1.
  rewrite Hfen. apply ev_exit_run. exact H1.
Qed.

(** ** Undo at the head of the history *)

Lemma replay_san_app (l1 l2 : list string) :
  forall p : Pos E,
    replay_san E p (l1 ++ l2) =
    match replay_san E p l1 with
    | Some q => replay_san E q l2
    | None => None
    end.
Proof.
  induction l1 as [| s l1 IH]; intros p; simpl.
  - reflexivity.
  - destruct (move_san E p s) as [[san p'] |]; [apply IH | reflexivity].
Qed.

Lemma replay_chain_replays (base : Pos E) (stack : list (Pos E * string))
  (cur : Pos E) :
  replay_chain E base stack cur ->
  replay_san E base (List.rev (map snd stack)) = Some cur.
Proof.
  induction 1 as [| p s rest p' Hchain IH Hmove]; simpl.
  - reflexivity.
  - rewrite replay_san_app, IH. simpl. rewrite Hmove. reflexivity.
Qed.

(** C7 (amended): at the head of a history played from the initial
    position (the engine holds exactly the recorded moves), a successful
    [undoMove] leaves [moveHistory] without its last record, the index on
    the new last record, and [fen] the print of the replay of the
    remaining prefix from the initial position. *)
Theorem undo_at_head_pops_last (w : World E) :
  Chess_history E (game w) = moveHistory (gameState w) ->
  replay_chain E (start E) (past (game w)) (position (game w)) ->
  moveHistory (gameState w) <> [] ->
  exists (w' : World E) (p : Pos E),
    undoMove E w = (Returned true, w') /\
    moveHistory (gameState w') = removelast (moveHistory (gameState w)) /\
    currentMoveIndex (gameState w')
      = Z.of_nat (length (moveHistory (gameState w))) - 2 /\
    replay_san E (start E) (removelast (moveHistory (gameState w))) = Some p /\
    fen (gameState w') = pos_fen E p.
Proof.
  intros Hhead Hchain Hne.
  unfold Chess_history in Hhead.
  destruct (past (game w)) as [| [p s] rest] eqn:Hpast.
  - simpl in Hhead. congruence.
  - inversion Hchain as [| p1 s1 rest1 p1' Hrest Hmove]; subst.
    apply replay_chain_replays in Hrest.
    simpl in Hhead. rewrite <- Hhead.
    rewrite removelast_last, length_app. simpl.
    eexists. exists p. split; [| split; [| split; [| split]]].
    + unfold undoMove, bind, game_undo, Chess_undo. rewrite Hpast. reflexivity.
    + reflexivity.
    + cbn. unfold Chess_history. cbn. lia.
    + exact Hrest.
    + reflexivity.
Qed.

(** ** Where the side conditions come from *)

Lemma Chess_history_length (g : Chess) :
  length (Chess_history E g) = length (past g).
Proof. unfold Chess_history. rewrite length_rev, length_map. reflexivity. Qed.

Lemma gotoMove_in_range (w : World E) (k : Z) :
  -1 <= k < Z.of_nat (length (moveHistory (gameState w))) ->
  ev_gotoMove E k w =
  match forEach E (slice0 (k + 1) (moveHistory (gameState w)))
          (fun move (_ : unit) =>
             bind E (game_move_san E move) (fun _ => ret tt)) tt
          (with_game E (Chess_default E) w) with
  | (Returned _, w') =>
      (Returned tt,
       with_gameState E
         {| fen := Chess_fen E (game w');
            moveHistory := moveHistory (gameState w);
            currentMoveIndex := k;
            isGameOver := Chess_isGameOver E (game w');
            turn := Chess_turn E (game w') |} w')
  | (Thrown e, w') => (Thrown e, w')
  end.
Proof.
  intros range. unfold ev_gotoMove, fire, gotoMove.
  replace (k <? -1) with false by (symmetry; apply Z.ltb_ge; lia).
  replace (k >=? Z.of_nat (length (moveHistory (gameState w)))) with false
    by (symmetry; rewrite Z.geb_leb; apply Z.leb_gt; lia).
  reflexivity.
Qed.

Lemma gotoMove_loop_step (s : string) (l : list string) (w : World E) :
  forEach E (s :: l) (fun move (_ : unit) =>
                        bind E (game_move_san E move) (fun _ => ret tt)) tt w
  = match move_san E (position (game w)) s with
    | Some (san, p') =>
        forEach E l (fun move (_ : unit) =>
                       bind E (game_move_san E move) (fun _ => ret tt)) tt
          (with_game E
             {| position := p'; past := (position (game w), san) :: past (game w) |} w)
    | None => (Thrown "Invalid move", w)
    end.
Proof.
  cbn [forEach]. unfold bind at 1. unfold bind at 1.
  unfold game_move_san, Chess_move_san.
  destruct (move_san E (position (game w)) s) as [[san p'] |]; reflexivity.
Qed.

(** However the replay loop of [gotoMove] ends, the engine has gained at
    most one move per item and the [GameState] has not moved. *)
Lemma gotoMove_loop_bound (l : list string) :
  forall w : World E,
    (length (past (game (snd
       (forEach E l (fun move (_ : unit) =>
                       bind E (game_move_san E move) (fun _ => ret tt)) tt w))))
     <= length (past (game w)) + length l)%nat /\
    gameState (snd
       (forEach E l (fun move (_ : unit) =>
                       bind E (game_move_san E move) (fun _ => ret tt)) tt w))
    = gameState w.
Proof.
  induction l as [| s l IH]; intros w.
  - simpl. split; [lia | reflexivity].
  - rewrite gotoMove_loop_step.
    destruct (move_san E (position (game w)) s) as [[san p'] |].
    + specialize (IH (with_game E
        {| position := p'; past := (position (game w), san) :: past (game w) |} w)).
      destruct IH as (Hlen & Hs). cbn [with_game game gameState past length] in Hlen, Hs.
      split; [| exact Hs]. cbn [length]. lia.
    + simpl. split; [lia | reflexivity].
Qed.

(** X3: [engine_within_history] is kept by every operation of [useChessGame]
    except a failing [loadPgn], whose half-loaded engine is the engine's
    business. *)
Lemma engine_within_history_kept (w : World E) :
  engine_within_history w ->
  (forall from to promotion,
     engine_within_history (snd (makeMove E from to promotion w))) /\
  engine_within_history (snd (undoMove E w)) /\
  engine_within_history (snd (resetGame E w)) /\
  (forall f, engine_within_history (snd (loadFen E f w))) /\
  (forall k, engine_within_history (snd (ev_gotoMove E k w))).
Proof.
  intros H. unfold engine_within_history in *.
  split; [| split; [| split; [| split]]].
  - intros from to promotion.
    unfold makeMove, try_catch, bind, game_move, Chess_move.
    destruct (move_coord E _ _ _ _) as [[san p'] |]; simpl; [lia | exact H].
  - unfold undoMove, bind, game_undo, Chess_undo.
    destruct (past (game w)) as [| [p s] rest]; simpl; [exact H | lia].
  - simpl. lia.
  - intros f. unfold loadFen, try_catch, bind, game_load, Chess_load.
    destruct (parse_fen E f); simpl; [lia | exact H].
  - intros k.
    destruct (Z.ltb_spec k (-1)) as [Hlo | Hlo];
      [| destruct (Z.ltb_spec k (Z.of_nat (length (moveHistory (gameState w)))))
           as [Hhi | Hhi]].
    + unfold ev_gotoMove, fire, gotoMove.
      replace (k <? -1) with true by (symmetry; apply Z.ltb_lt; lia). exact H.
    + rewrite gotoMove_in_range by lia.
      pose proof (gotoMove_loop_bound
                    (slice0 (k + 1) (moveHistory (gameState w)))
                    (with_game E (Chess_default E) w)) as (Hlen & Hs).
      assert (length (slice0 (k + 1) (moveHistory (gameState w)))
              <= length (moveHistory (gameState w)))%nat as Hslice
        by (unfold slice0; rewrite length_firstn; lia).
      destruct (forEach E (slice0 (k + 1) (moveHistory (gameState w)))
                  (fun move (_ : unit) =>
                     bind E (game_move_san E move) (fun _ => ret tt)) tt
                  (with_game E (Chess_default E) w)) as [[[] | e] w1];
        cbn [snd] in Hlen, Hs; simpl in Hlen.
      * cbn. rewrite Chess_history_length. lia.
      * cbn [snd]. rewrite Hs, Chess_history_length. simpl. lia.
    + unfold ev_gotoMove, fire, gotoMove.
      replace (k >=? Z.of_nat (length (moveHistory (gameState w)))) with true
        by (symmetry; rewrite Z.geb_leb; apply Z.leb_le; lia).
      rewrite orb_true_r. exact H.
Qed.

(** One call of an operation keeps the engine within the history, unless
    it is a [loadPgn] that answers [false]. *)
Lemma run_operation_within_history (o : operation) (w : World E) :
  records_accepted E [o] w ->
  engine_within_history w ->
  engine_within_history (run_operation E o w).
Proof.
  intros [accepted _] H. unfold engine_within_history in *.
  destruct o as [from to promotion | | | fenText | pgnText | k];
    cbn [run_operation].
  - unfold makeMove, try_catch, bind, game_move, Chess_move.
    destruct (move_coord E _ _ _ _) as [[san p'] |]; simpl; [lia | exact H].
  - unfold undoMove, bind, game_undo, Chess_undo.
    destruct (past (game w)) as [| [p s] rest]; simpl; [exact H | lia].
  - simpl. lia.
  - unfold loadFen, try_catch, bind, game_load, Chess_load.
    destruct (parse_fen E fenText); simpl; [lia | exact H].
  - revert accepted. unfold loadPgn, try_catch, bind, game_loadPgn.
    destruct (engine_loadPgn E (game w) pgnText) as [g' [|]]; simpl.
    + intros _. lia.
    + discriminate.
  - destruct (Z.ltb_spec k (-1)) as [Hlo | Hlo];
      [| destruct (Z.ltb_spec k (Z.of_nat (length (moveHistory (gameState w)))))
           as [Hhi | Hhi]].
    + unfold ev_gotoMove, fire, gotoMove.
      replace (k <? -1) with true by (symmetry; apply Z.ltb_lt; lia). exact H.
    + rewrite gotoMove_in_range by lia.
      pose proof (gotoMove_loop_bound
                    (slice0 (k + 1) (moveHistory (gameState w)))
                    (with_game E (Chess_default E) w)) as (Hlen & Hs).
      assert (length (slice0 (k + 1) (moveHistory (gameState w)))
              <= length (moveHistory (gameState w)))%nat as Hslice
        by (unfold slice0; rewrite length_firstn; lia).
      destruct (forEach E (slice0 (k + 1) (moveHistory (gameState w)))
                  (fun move (_ : unit) =>
                     bind E (game_move_san E move) (fun _ => ret tt)) tt
                  (with_game E (Chess_default E) w)) as [[[] | e] w1];
        cbn [snd] in Hlen, Hs; simpl in Hlen.
      * cbn. rewrite Chess_history_length. lia.
      * cbn [snd]. rewrite Hs, Chess_history_length. simpl. lia.
    + unfold ev_gotoMove, fire, gotoMove.
      replace (k >=? Z.of_nat (length (moveHistory (gameState w)))) with true
        by (symmetry; rewrite Z.geb_leb; apply Z.leb_le; lia).
      rewrite orb_true_r. exact H.
Qed.

Lemma run_operations_within_history (l : list operation) :
  forall w : World E,
    records_accepted E l w ->
    engine_within_history w ->
    engine_within_history (run_operations E l w).
Proof.
  induction l as [| o l IH]; intros w accepted H.
  - exact H.
  - destruct accepted as [Ho Hl]. cbn [run_operations].
    apply IH; [exact Hl |].
    apply run_operation_within_history; [split; [exact Ho | exact I] | exact H].
Qed.

(** C10 (amended): after any sequence of calls of [makeMove], [undoMove],
    [resetGame], [loadFen], [gotoMove] and [loadPgn] from the first
    render in which no [loadPgn] has answered [false], an empty move
    history makes [undoMove] answer [false] and leave the world, hence
    the [GameState], as it was before the call. *)
Theorem undo_on_empty_history (l : list operation) :
  records_accepted E l (initialWorld E) ->
  moveHistory (gameState (run_operations E l (initialWorld E))) = [] ->
  undoMove E (run_operations E l (initialWorld E))
  = (Returned false, run_operations E l (initialWorld E)).
Proof.
  intros accepted empty.
  apply undoMove_nothing_to_undo; [exact empty |].
  apply run_operations_within_history; [exact accepted |].
  unfold engine_within_history. simpl. lia.
Qed.

Section SanSound.

(** The SAN the engine prints for a move reads back, in the position the
    move was made from, as that move. *)
Hypothesis san_sound :
  forall p from to promotion san p',
    move_coord E p from to promotion = Some (san, p') ->
    move_san E p san = Some (san, p').

(** Moves, undos and new games keep the session at the head of a history
    that replays from the initial position. *)
Lemma played_at_head (w : World E) : played E w -> at_head E w.
Proof.
  induction 1 as [| w from to promotion Hw IH | w Hw IH | w Hw IH].
  - split; [reflexivity | constructor].
  - destruct IH as (Hh & Hc).
    unfold makeMove, try_catch, bind, game_move, Chess_move.
    destruct (move_coord E _ _ _ _) as [[san p'] |] eqn:Hm; simpl.
    + split; [reflexivity |]. constructor; [exact Hc |].
      eapply san_sound. exact Hm.
    + split; assumption.
  - destruct IH as (Hh & Hc).
    unfold undoMove, bind, game_undo, Chess_undo.
    destruct (past (game w)) as [| [p s] rest] eqn:Hp; simpl.
    + split; [exact Hh | rewrite Hp; exact Hc].
    + split; [reflexivity |].
      inversion Hc; subst. assumption.
  - split; [reflexivity | constructor].
Qed.

(** Such a history is a sequence of legal moves from the initial
    position, and so is each of its prefixes ([replay_san_prefix]), which
    is what [gotoMove_replays_prefix] asks for. *)
Lemma played_history_replays (w : World E) :
  played E w -> replay_san E (start E) (moveHistory (gameState w)) <> None.
Proof.
  intros H. destruct (played_at_head w H) as (Hh & Hc).
  apply replay_chain_replays in Hc.
  rewrite <- Hh. unfold Chess_history. rewrite Hc. discriminate.
Qed.

End SanSound.

(** ** The game record *)

(** [getPgn] right after a successful [loadPgn] prints the very object the
    engine's parser has built, whose moves are the recorded history: the
    hooks add nothing between the engine's reader and its writer. *)
Lemma getPgn_after_loadPgn (w : World E) (text : string) :
  fst (loadPgn E text w) = Returned true ->
  fst (getPgn E (snd (loadPgn E text w)))
    = Returned (engine_pgn E (fst (engine_loadPgn E (game w) text))) /\
  moveHistory (gameState (snd (loadPgn E text w)))
    = Chess_history E (fst (engine_loadPgn E (game w) text)).
Proof.
  unfold loadPgn, getPgn, try_catch, bind, game_loadPgn.
  destruct (engine_loadPgn E (game w) text) as [g' [|]]; simpl.
  - intros _. split; reflexivity.
  - discriminate.
Qed.

End SessionFacts.

(** * Around the hooks *)

Section MoveListFacts.

Local Open Scope list_scope.
Local Open Scope nat_scope.

(** ** The rows of the move list *)

Lemma skipn_past_end {A} (l : list A) (i : nat) :
  length l <= i -> skipn i l = [].
Proof. intros H. apply skipn_all2. exact H. Qed.

(** With fuel for the moves that are left, the rows from index [i] show
    the moves from [i] on. *)
Lemma movePairs_from_moves (fuel : nat) :
  forall (moves : list string) (i : nat),
    length moves - i <= 2 * fuel ->
    concat (map row_moves (movePairs_from fuel moves i)) = skipn i moves.
Proof.
  induction fuel as [| fuel IH]; intros moves i Hfuel.
  - simpl. rewrite skipn_past_end by lia. reflexivity.
  - cbn [movePairs_from].
    destruct (Nat.ltb_spec i (length moves)) as [Hi | Hi].
    + cbn [map concat]. rewrite IH by lia.
      destruct (nth_error moves i) as [a |] eqn:Ha;
        [| apply nth_error_None in Ha; lia].
      rewrite (skipn_nth_error _ _ _ Ha).
      unfold row_moves. cbn [white black].
      replace (i + 1) with (S i) by lia. replace (i + 2) with (S (S i)) by lia.
      destruct (nth_error moves (S i)) as [b |] eqn:Hb.
      * rewrite (skipn_nth_error _ _ _ Hb). reflexivity.
      * apply nth_error_None in Hb.
        rewrite (skipn_past_end moves (S i)) by lia.
        rewrite (skipn_past_end moves (S (S i))) by lia. reflexivity.
    + simpl. rewrite skipn_past_end by lia. reflexivity.
Qed.

(** The loop is over once the index has passed the end: more fuel gives
    no more rows. *)
Lemma movePairs_from_enough (fuel : nat) :
  forall (moves : list string) (i extra : nat),
    length moves - i <= 2 * fuel ->
    movePairs_from (fuel + extra) moves i = movePairs_from fuel moves i.
Proof.
  induction fuel as [| fuel IH]; intros moves i extra Hfuel.
  - destruct extra as [| extra]; [reflexivity |].
    cbn [Nat.add movePairs_from].
    destruct (Nat.ltb_spec i (length moves)); [lia | reflexivity].
  - cbn [Nat.add movePairs_from].
    destruct (Nat.ltb_spec i (length moves)); [| reflexivity].
    rewrite IH by lia. reflexivity.
Qed.

Lemma movePairs_from_length (fuel : nat) :
  forall (moves : list string) (i : nat),
    length moves - i <= 2 * fuel ->
    length (movePairs_from fuel moves i) = (length moves - i + 1) / 2.
Proof.
  induction fuel as [| fuel IH]; intros moves i Hfuel.
  - simpl. replace (length moves - i + 1) with 1 by lia. reflexivity.
  - cbn [movePairs_from].
    destruct (Nat.ltb_spec i (length moves)) as [Hi | Hi].
    + cbn [length]. rewrite IH by lia.
      destruct (Nat.eq_dec (length moves - i) 1) as [Hone | Hmore].
      * replace (length moves - (i + 2) + 1) with 1 by lia.
        replace (length moves - i + 1) with 2 by lia. reflexivity.
      * replace (length moves - i + 1)
          with (length moves - (i + 2) + 1 + 1 * 2) by lia.
        rewrite Nat.div_add by lia. lia.
    + simpl. replace (length moves - i + 1) with 1 by lia. reflexivity.
Qed.

(** The rows are numbered 1, 2, 3, ... *)
Lemma movePairs_from_numbers (fuel : nat) :
  forall (moves : list string) (j : nat),
    map moveNumber (movePairs_from fuel moves (2 * j))
    = map (fun k => Z.of_nat k + 1)%Z
          (seq j (length (movePairs_from fuel moves (2 * j)))).
Proof.
  induction fuel as [| fuel IH]; intros moves j.
  - reflexivity.
  - cbn [movePairs_from].
    destruct (Nat.ltb_spec (2 * j) (length moves)); [| reflexivity].
    cbn [map length seq moveNumber].
    replace (2 * j + 2) with (2 * S j) by lia. rewrite IH.
    replace (2 * j / 2) with j by (rewrite Nat.mul_comm, Nat.div_mul; lia).
    reflexivity.
Qed.

(** X14: the rows of [MoveHistory] show every move once and in order, two
    to a row, there are [ceil (len / 2)] of them, and they are numbered
    from 1. *)
Theorem movePairs_show_all_moves (moves : list string) :
  concat (map row_moves (movePairs moves)) = moves /\
  length (movePairs moves) = (length moves + 1) / 2 /\
  map moveNumber (movePairs moves)
    = map (fun k => Z.of_nat k + 1)%Z (seq 0 ((length moves + 1) / 2)) /\
  (forall extra, movePairs_from (length moves + extra) moves 0 = movePairs moves).
Proof.
  unfold movePairs. split; [| split; [| split]].
  - rewrite movePairs_from_moves by lia. reflexivity.
  - rewrite movePairs_from_length by lia. rewrite Nat.sub_0_r. reflexivity.
  - change 0 with (2 * 0) at 1.
    rewrite movePairs_from_numbers. cbn [Nat.mul].
    rewrite movePairs_from_length by lia. rewrite Nat.sub_0_r. reflexivity.
  - intros extra. apply movePairs_from_enough. lia.
Qed.

(** ** The buttons of the move list *)

Lemma buttons_from_in_range (fuel : nat) :
  forall (moves : list string) (j : nat),
    Forall (fun b : Z * option string =>
              (0 <= fst b < Z.of_nat (length moves))%Z /\
              snd b = nth_error moves (Z.to_nat (fst b)) /\
              snd b <> None)
           (buttons_from j (movePairs_from fuel moves (2 * j))).
Proof.
  induction fuel as [| fuel IH]; intros moves j.
  - constructor.
  - cbn [movePairs_from].
    destruct (Nat.ltb_spec (2 * j) (length moves)) as [Hi | Hi]; [| constructor].
    cbn [buttons_from]. apply Forall_app. split.
    + unfold rowButtons. cbn [white black].
      assert (nth_error moves (2 * j) <> None) as Hw
        by (apply nth_error_Some; exact Hi).
      constructor.
      * cbn [fst snd]. replace (Z.to_nat (Z.of_nat j * 2)) with (2 * j) by lia.
        repeat split; [lia | lia | exact Hw].
      * destruct (nth_error moves (2 * j + 1)) as [b |] eqn:Hb; [| constructor].
        destruct b as [| c b]; cbn [truthy]; constructor; [| constructor].
        cbn [fst snd].
        replace (Z.to_nat (Z.of_nat j * 2 + 1)) with (2 * j + 1) by lia.
        assert (2 * j + 1 < length moves)
          by (apply nth_error_Some; rewrite Hb; discriminate).
        repeat split; [lia | lia | symmetry; exact Hb | discriminate].
    + replace (2 * j + 2) with (2 * S j) by lia. apply IH.
Qed.

(** X15: every button [MoveHistory] draws sends an index of the history,
    and is labelled with the move at that index: a click from the list
    is never out of the range [gotoMove] accepts. *)
Theorem historyButtons_in_range (moves : list string) :
  Forall (fun b : Z * option string =>
            (0 <= fst b < Z.of_nat (length moves))%Z /\
            snd b = nth_error moves (Z.to_nat (fst b)) /\
            snd b <> None)
         (historyButtons moves).
Proof.
  unfold historyButtons, movePairs. change 0 with (2 * 0) at 2.
  apply buttons_from_in_range.
Qed.

Lemma buttons_from_all (fuel : nat) :
  forall (moves : list string) (j : nat),
    Forall (fun m => m <> EmptyString) moves ->
    length moves - 2 * j <= 2 * fuel ->
    buttons_from j (movePairs_from fuel moves (2 * j))
    = map (fun i => (Z.of_nat i, nth_error moves i))
          (seq (2 * j) (length moves - 2 * j)).
Proof.
  induction fuel as [| fuel IH]; intros moves j Hne Hfuel.
  - replace (length moves - 2 * j) with 0 by lia. reflexivity.
  - cbn [movePairs_from].
    destruct (Nat.ltb_spec (2 * j) (length moves)) as [Hi | Hi].
    + cbn [buttons_from]. replace (2 * j + 2) with (2 * S j) by lia.
      rewrite IH by (assumption || lia).
      unfold rowButtons. cbn [white black].
      replace (length moves - 2 * j) with (S (length moves - 2 * j - 1)) by lia.
      cbn [seq map app].
      replace (Z.of_nat j * 2)%Z with (Z.of_nat (2 * j)) by lia.
      f_equal.
      destruct (nth_error moves (2 * j + 1)) as [b |] eqn:Hb.
      * assert (2 * j + 1 < length moves)
          by (apply nth_error_Some; rewrite Hb; discriminate).
        assert (b <> EmptyString) as Hbne.
        { rewrite Forall_forall in Hne. apply Hne.
          eapply nth_error_In. exact Hb. }
        destruct b as [| c b]; [congruence |]. cbn [truthy app].
        replace (length moves - 2 * j - 1)
          with (S (length moves - 2 * S j)) by lia.
        cbn [seq map].
        replace (S (2 * j)) with (2 * j + 1) by lia. rewrite Hb.
        replace (Z.of_nat (2 * j) + 1)%Z with (Z.of_nat (2 * j + 1)) by lia.
        replace (S (2 * j + 1)) with (2 * S j) by lia. reflexivity.
      * apply nth_error_None in Hb. cbn [truthy app].
        replace (length moves - 2 * S j) with 0 by lia.
        replace (length moves - 2 * j - 1) with 0 by lia. reflexivity.
    + replace (length moves - 2 * j) with 0 by lia. reflexivity.
Qed.

(** X16: when no move of the history is the empty string, [MoveHistory]
    draws one button per move, in order: button [i] sends [i] and shows
    [moves[i]]. *)
Theorem historyButtons_one_per_move (moves : list string) :
  Forall (fun m => m <> EmptyString) moves ->
  historyButtons moves
  = map (fun i => (Z.of_nat i, nth_error moves i)) (seq 0 (length moves)).
Proof.
  intros Hne. unfold historyButtons, movePairs.
  change 0 with (2 * 0) at 2.
  rewrite buttons_from_all by (assumption || lia).
  cbn [Nat.mul]. rewrite Nat.sub_0_r. reflexivity.
Qed.

(** ** The move text of a line card *)

(** X17: [formatMoves] gives the empty text for a line without display
    moves and throws a [ReferenceError] for every other line: its
    template reads [whiteMove], and the loop declares [whitMove]. *)
Theorem formatMoves_throws_on_moves :
  formatMoves [] = Returned EmptyString /\
  forall (m : string) (rest : list string),
    formatMoves (m :: rest) = Thrown "ReferenceError: whiteMove is not defined".
Proof.
  split; [reflexivity |]. intros m rest. reflexivity.
Qed.

End MoveListFacts.

Section InterfaceFacts.

Local Open Scope list_scope.

Variable E : Rules.

Abbreviation Chess := (ChessObj (Pos E)).

(** ** Moves, undos and loads *)

Lemma World_eta (w : World E) :
  {| game := game w; gameState := gameState w;
     explorationState := explorationState w;
     console := console w; alerts := alerts w |} = w.
Proof. destruct w. reflexivity. Qed.

Lemma ChessObj_eta (g : Chess) :
  {| position := position g; past := past g |} = g.
Proof. destruct g. reflexivity. Qed.

(** [makeMove] never throws: it answers [true] with the engine advanced
    and the [GameState] read off it, or [false] with nothing changed. *)
Lemma makeMove_cases (w : World E) (from to : string) (promotion : option string) :
  (exists (san : string) (g' : Chess),
     Chess_move E (game w) from to (Some (promotion_or_q promotion))
       = Some (san, g') /\
     makeMove E from to promotion w
       = (Returned true, with_gameState E (engine_state E g') (with_game E g' w)))
  \/ makeMove E from to promotion w = (Returned false, w).
Proof.
  unfold makeMove, try_catch, bind, game_move.
  destruct (Chess_move E (game w) from to (Some (promotion_or_q promotion)))
    as [[san g'] |].
  - left. exists san, g'. split; reflexivity.
  - right. reflexivity.
Qed.

(** X1: an undo right after a successful move gives the engine object back
    as it was and shows the [GameState] read off it; in a session that
    was in step with its engine the whole world is the one before the
    move. *)
Theorem undo_after_move_restores (w : World E) (from to : string)
  (promotion : option string) :
  fst (makeMove E from to promotion w) = Returned true ->
  exists w2 : World E,
    undoMove E (snd (makeMove E from to promotion w)) = (Returned true, w2) /\
    game w2 = game w /\
    gameState w2 = engine_state E (game w) /\
    explorationState w2 = explorationState w /\
    console w2 = console w /\ alerts w2 = alerts w /\
    (gameState w = engine_state E (game w) -> w2 = w).
Proof.
  unfold makeMove, try_catch, bind, game_move, Chess_move.
  destruct (move_coord E (position (game w)) from to
              (Some (promotion_or_q promotion))) as [[san p'] |];
    [| discriminate].
  intros _. cbn.
  unfold undoMove, bind, game_undo, Chess_undo. cbn.
  rewrite ChessObj_eta.
  eexists. split; [reflexivity |]. cbn.
  repeat split.
  intros Hstep. destruct w as [g gs x c a]. cbn in Hstep |- *.
  subst gs. reflexivity.
Qed.

(** X2: a successful [loadFen] replaces the game wholesale: the history
    is empty, the index is [-1], the FEN is the engine's print of the
    loaded position, an undo right after it answers [false], and a
    [gotoMove] to any index but [-1] does nothing. *)
Theorem loadFen_starts_afresh (w : World E) (f : string) (p : Pos E) :
  parse_fen E f = Some p ->
  exists w1 : World E,
    loadFen E f w = (Returned true, w1) /\
    gameState w1 = loaded_state E p /\
    game w1 = {| position := p; past := [] |} /\
    undoMove E w1 = (Returned false, w1) /\
    (forall k, k <> -1 -> ev_gotoMove E k w1 = (Returned tt, w1)).
Proof.
  intros Hparse.
  unfold loadFen, try_catch, bind, game_load, Chess_load. rewrite Hparse.
  eexists. split; [reflexivity |]. cbn.
  split; [reflexivity |]. split; [reflexivity |]. split; [reflexivity |].
  intros k Hk. unfold ev_gotoMove, fire, gotoMove. cbn.
  destruct (Z.ltb_spec k (-1)); [reflexivity |].
  replace (k >=? 0) with true
    by (symmetry; rewrite Z.geb_leb; apply Z.leb_le; lia).
  reflexivity.
Qed.

(** ** The game controls outside exploration *)

(** X8: outside exploration, a new game that is declined changes nothing;
    one that is confirmed, or asked for on an empty history (no question
    then), resets the engine and shows the initial position with an empty
    history. *)
Theorem newGame_outside_exploration (w : World E) (confirmed : bool) :
  isActive (explorationState w) = false ->
  ev_newGame E confirmed w =
  (Returned tt,
   if (0 <? Z.of_nat (length (moveHistory (gameState w)))) && negb confirmed
   then w
   else with_gameState E (engine_state E (Chess_default E))
          (with_game E (Chess_default E) w)).
Proof.
  intros Hidle. unfold ev_newGame, fire, handleNewGame. rewrite Hidle.
  destruct (0 <? Z.of_nat (length (moveHistory (gameState w))));
    destruct confirmed; reflexivity.
Qed.

(** X9: resigning never touches the game: whatever the mode and the
    answer to the question, the engine, the [GameState] (its
    [isGameOver] flag too) and the exploration state are the ones before
    the click; only an alert is shown, or nothing. *)
Theorem resign_leaves_the_game (w : World E) (confirmed : bool) :
  fst (ev_resign E confirmed w) = Returned tt /\
  game (snd (ev_resign E confirmed w)) = game w /\
  gameState (snd (ev_resign E confirmed w)) = gameState w /\
  explorationState (snd (ev_resign E confirmed w)) = explorationState w /\
  console (snd (ev_resign E confirmed w)) = console w /\
  (alerts (snd (ev_resign E confirmed w)) = alerts w \/
   exists msg, alerts (snd (ev_resign E confirmed w)) = alerts w ++ [msg]).
Proof.
  unfold ev_resign, fire, handleResign.
  destruct (isActive (explorationState w)); [| destruct confirmed];
    cbn; repeat split; (left; reflexivity) || (right; eexists; reflexivity).
Qed.

(** ** The exploration controls *)

(** X7: the handler behind a navigation button that GamePage disables
    ([canGoNext] or [canGoPrevious] false) changes nothing. *)
Theorem disabled_navigation_is_noop (w : World E) (d : direction) :
  can_go d w = false ->
  ev_navigate E d w = (Returned tt, w).
Proof.
  destruct d; unfold can_go, canGoNext, canGoPrevious, totalPositions;
    intros Hoff; cbn.
  - unfold ev_next, fire, handleExplorationNext.
    destruct (currentLine (explorationState w)) as [line |]; [| reflexivity].
    apply Z.ltb_ge in Hoff.
    replace (currentPosition (explorationState w) + 1
             >=? Z.of_nat (length (moves line))) with true
      by (symmetry; rewrite Z.geb_leb; apply Z.leb_le; lia).
    reflexivity.
  - unfold ev_previous, fire, handleExplorationPrevious.
    destruct (currentLine (explorationState w)) as [line |]; [| reflexivity].
    rewrite Z.gtb_ltb in Hoff. apply Z.ltb_ge in Hoff.
    replace (currentPosition (explorationState w) <=? 0) with true
      by (symmetry; apply Z.leb_le; lia).
    reflexivity.
Qed.

(** ** Entering and leaving the sandbox *)

(** X5: on a line whose tokens are all legal, [handleExplore] returns
    with the board on the position after the whole line, nothing on the
    console, the history hidden, and [currentPosition] at [0]. *)
Theorem explore_legal_line (w : World E) (line : ChessLine) (p0 p : Pos E) :
  fen (gameState w) = pos_fen E p0 ->
  apply_all E p0 (moves line) = Some p ->
  exists w' : World E,
    ev_explore E line w = (Returned tt, w') /\
    fen (gameState w') = pos_fen E p /\
    moveHistory (gameState w') = [] /\
    console w' = console w /\
    isActive (explorationState w') = true /\
    currentPosition (explorationState w') = 0 /\
    snapshot w' =
      {| saved_fen := fen (gameState w);
         saved_moveIndex := currentMoveIndex (gameState w);
         saved_moveHistory := moveHistory (gameState w) |}.
Proof.
  intros Hfen Hlegal.
  destruct (ev_explore_run E w line p0 Hfen)
    as (w' & Hrun & _ & Hs & Hx & Hc & _).
  exists w'. split; [exact Hrun |].
  rewrite (play_tokens_legal E _ _ _ Hlegal) in Hs.
  rewrite (rejected_tokens_legal E _ _ _ Hlegal), app_nil_r in Hc.
  unfold snapshot. rewrite Hs, Hx, Hc. cbn. repeat split.
Qed.

(** The saved triple survives every step of an episode. *)
Lemma run_browse_snapshot (b : browse) (w : World E) :
  snapshot (run_browse E b w) = snapshot w.
Proof.
  unfold snapshot. destruct b; cbn [run_browse].
  - reflexivity.
  - reflexivity.
  - destruct (ev_next_exploration E w) as [-> | ->]; reflexivity.
  - destruct (ev_previous_exploration E w) as [-> | ->]; reflexivity.
Qed.

Lemma run_browses_snapshot (l : list browse) :
  forall w : World E, snapshot (run_browses E l w) = snapshot w.
Proof.
  unfold run_browses. induction l as [| b l IH]; intros w; cbn [fold_left].
  - reflexivity.
  - rewrite IH. apply run_browse_snapshot.
Qed.

(** X4: [exitExploration] hands back exactly the three values
    [enterExploration] was given, whatever next and previous steps came
    in between, and leaves the exploration state at its default. *)
Theorem exitExploration_returns_what_was_saved
  (w : World E) (line : ChessLine) (f : string) (k : Z) (mh : list string)
  (steps : list browse) :
  exitExploration E
    (run_browses E steps (snd (enterExploration E line f k mh w)))
    (run_browses E steps (snd (enterExploration E line f k mh w)))
  = (Returned {| saved_fen := f; saved_moveIndex := k; saved_moveHistory := mh |},
     with_explorationState E initialExplorationState
       (run_browses E steps (snd (enterExploration E line f k mh w)))).
Proof.
  pose proof (run_browses_snapshot steps (snd (enterExploration E line f k mh w)))
    as Hsnap.
  unfold snapshot in Hsnap. cbn in Hsnap.
  unfold exitExploration, bind, setExplorationState. cbn.
  injection Hsnap as Hf Hk Hh. rewrite Hf, Hk, Hh. reflexivity.
Qed.

(** X6: [handleExplore] in a sandbox takes the sandbox for the game: the
    saved triple becomes the FEN of the first line's outcome with index
    [-1] and an empty history, and the exit that follows puts the board
    on the initial position. *)
Theorem nested_explore_saves_the_sandbox
  (w : World E) (line1 line2 : ChessLine) (p0 : Pos E) :
  fen (gameState w) = pos_fen E p0 ->
  snapshot (snd (ev_explore E line2 (snd (ev_explore E line1 w)))) =
    {| saved_fen := pos_fen E (play_tokens E p0 (moves line1));
       saved_moveIndex := -1; saved_moveHistory := [] |} /\
  exists w3 : World E,
    ev_exit E (snd (ev_explore E line2 (snd (ev_explore E line1 w))))
      = (Returned tt, w3) /\
    fen (gameState w3) = pos_fen E (start E) /\
    moveHistory (gameState w3) = [] /\
    currentMoveIndex (gameState w3) = -1.
Proof.
  intros Hfen.
  destruct (ev_explore_run E w line1 p0 Hfen) as (w1 & Hrun1 & _ & Hs1 & _).
  rewrite Hrun1. cbn [snd].
  assert (fen (gameState w1)
          = pos_fen E (play_tokens E p0 (moves line1))) as Hfen1
    by (rewrite Hs1; reflexivity).
  split.
  - unfold snapshot. rewrite ev_explore_exploration, Hs1. reflexivity.
  - destruct (exit_forgets_history E w1 line2 _ [] Hfen1)
      as (w3 & Hrun3 & Hh & Hi & Hf & _).
    cbn in Hrun3. exists w3. split; [exact Hrun3 |].
    rewrite Hs1 in Hf. cbn in Hf.
    repeat split; assumption.
Qed.

(** ** What every handler keeps *)

Lemma writes_ret {A} (a : A) : writes_ok E (ret a).
Proof. intros w. left. reflexivity. Qed.

Lemma writes_throw {A} (e : string) : writes_ok E (@throw E A e).
Proof. intros w. left. reflexivity. Qed.

Lemma writes_bind {A B} (c : Eff E A) (k : A -> Eff E B) :
  writes_ok E c -> (forall a, writes_ok E (k a)) -> writes_ok E (bind E c k).
Proof.
  intros Hc Hk w. unfold bind. specialize (Hc w).
  destruct (c w) as [[a | e] w1]; cbn [snd] in *; [| exact Hc].
  destruct (Hk a w1) as [Hsame | Hok]; [| right; exact Hok].
  rewrite Hsame. exact Hc.
Qed.

Lemma writes_try_catch {A} (c : Eff E A) (h : string -> Eff E A) :
  writes_ok E c -> (forall e, writes_ok E (h e)) -> writes_ok E (try_catch E c h).
Proof.
  intros Hc Hh w. unfold try_catch. specialize (Hc w).
  destruct (c w) as [[a | e] w1]; cbn [snd] in *; [exact Hc |].
  destruct (Hh e w1) as [Hsame | Hok]; [| right; exact Hok].
  rewrite Hsame. exact Hc.
Qed.

Lemma writes_forEach {A S} (body : A -> S -> Eff E S) (l : list A) :
  (forall a s, writes_ok E (body a s)) ->
  forall s, writes_ok E (forEach E l body s).
Proof.
  intros Hbody. induction l as [| a l IH]; intros s; cbn [forEach].
  - apply writes_ret.
  - apply writes_bind; [apply Hbody | intros s'; apply IH].
Qed.

Lemma writes_for_from {S} (body : Z -> S -> Eff E S) (n : nat) :
  (forall i s, writes_ok E (body i s)) ->
  forall i s, writes_ok E (for_from E n i body s).
Proof.
  intros Hbody. induction n as [| n IH]; intros i s; cbn [for_from].
  - apply writes_ret.
  - apply writes_bind; [apply Hbody | intros a; apply IH].
Qed.

Lemma engine_state_ok (g : Chess) : gs_ok E (engine_state E g).
Proof.
  split; [exists (position g); reflexivity |]. cbn. lia.
Qed.

Lemma writes_updateGameState : writes_ok E (updateGameState E).
Proof. intros w. right. apply engine_state_ok. Qed.

Lemma writes_game_move (from to : string) (promotion : option string) :
  writes_ok E (game_move E from to promotion).
Proof.
  intros w. left. unfold game_move.
  destruct (Chess_move E (game w) from to promotion) as [[san g'] |]; reflexivity.
Qed.

Lemma writes_game_move_san (s : string) : writes_ok E (game_move_san E s).
Proof.
  intros w. left. unfold game_move_san.
  destruct (Chess_move_san E (game w) s) as [[san g'] |]; reflexivity.
Qed.

Lemma writes_game_undo : writes_ok E (game_undo E).
Proof.
  intros w. left. unfold game_undo.
  destruct (Chess_undo E (game w)) as [[san g'] |]; reflexivity.
Qed.

Lemma writes_game_load (f : string) : writes_ok E (game_load E f).
Proof.
  intros w. left. unfold game_load.
  destruct (Chess_load E f); reflexivity.
Qed.

Lemma writes_new_Chess (f : string) : writes_ok E (new_Chess E f).
Proof.
  unfold new_Chess. destruct (Chess_load E f);
    [apply writes_ret | apply writes_throw].
Qed.

Lemma writes_try_line_move (m : string) (t : Chess) :
  writes_ok E (try_line_move E m t).
Proof.
  intros w. left. unfold try_line_move, try_catch, temp_move.
  destruct (Chess_move E t _ _ _) as [[san t'] |]; reflexivity.
Qed.

Lemma writes_makeMove (from to : string) (promotion : option string) :
  writes_ok E (makeMove E from to promotion).
Proof.
  unfold makeMove. apply writes_try_catch; [| intros e; apply writes_ret].
  apply writes_bind; [apply writes_game_move |]. intros [san |].
  - apply writes_bind; [apply writes_updateGameState | intros u; apply writes_ret].
  - apply writes_ret.
Qed.

Lemma writes_undoMove : writes_ok E (undoMove E).
Proof.
  unfold undoMove. apply writes_bind; [apply writes_game_undo |]. intros [san |].
  - apply writes_bind; [apply writes_updateGameState | intros u; apply writes_ret].
  - apply writes_ret.
Qed.

Lemma writes_resetGame : writes_ok E (resetGame E).
Proof.
  unfold resetGame. apply writes_bind; [| intros u; apply writes_updateGameState].
  intros w. left. reflexivity.
Qed.

Lemma writes_loadFen (f : string) : writes_ok E (loadFen E f).
Proof.
  unfold loadFen. apply writes_try_catch; [| intros e; apply writes_ret].
  apply writes_bind; [apply writes_game_load |]. intros u.
  apply writes_bind; [apply writes_updateGameState | intros u'; apply writes_ret].
Qed.

(** [gotoMove] writes the history of its render with an index it has
    checked against that history, and the engine's print. *)
Lemma writes_gotoMove (snap : World E) (index : Z) :
  writes_ok E (gotoMove E snap index).
Proof.
  unfold gotoMove.
  destruct (Z.ltb_spec index (-1)) as [Hlo | Hlo]; [apply writes_ret |].
  destruct (index >=? Z.of_nat (length (moveHistory (gameState snap)))) eqn:Hhi;
    [apply writes_ret |].
  rewrite Z.geb_leb in Hhi. apply Z.leb_gt in Hhi. cbn [orb].
  apply writes_bind; [intros w; left; reflexivity |]. intros u.
  apply writes_bind.
  - apply writes_forEach. intros m s.
    apply writes_bind; [apply writes_game_move_san | intros o; apply writes_ret].
  - intros u'. apply writes_bind; [intros w; left; reflexivity |]. intros g.
    intros w. right. split; [exists (position g); reflexivity |]. cbn. lia.
Qed.

Lemma writes_show_prefix (line : ChessLine) (pos : Z) (f : string) :
  writes_ok E
    (bind E (new_Chess E f) (fun tempGame =>
       bind E (replay_upto E line pos tempGame) (fun tempGame =>
         bind E (loadFen E (Chess_fen E tempGame)) (fun _ => ret tt)))).
Proof.
  apply writes_bind; [apply writes_new_Chess |]. intros t.
  apply writes_bind.
  - unfold replay_upto. apply writes_for_from. intros i s.
    destruct (if i <? 0 then None else nth_error (moves line) (Z.to_nat i));
      [apply writes_try_line_move | apply writes_throw].
  - intros t'. apply writes_bind; [apply writes_loadFen |].
    intros b. apply writes_ret.
Qed.

(** Every handler of the game page, run against any render, leaves the
    [GameState] alone or writes a good one. *)
Lemma writes_run_event (e : event) : writes_ok E (run_event E e).
Proof.
  destruct e as [s t | c | | c | i | line | | |]; cbn [run_event].
  - apply writes_bind; [| intros b; apply writes_ret].
    intros w. unfold ev_drop, fire, onDrop, handleMove.
    destruct (isActive (explorationState w)); [left; reflexivity |].
    apply writes_makeMove.
  - intros w. unfold ev_newGame, fire, handleNewGame.
    destruct (isActive (explorationState w)); [left; reflexivity |].
    destruct (0 <? _); [destruct c |]; try apply writes_resetGame.
    left. reflexivity.
  - intros w. unfold ev_undo, fire, handleUndo.
    destruct (isActive (explorationState w)); [left; reflexivity |].
    apply (writes_bind (undoMove E) (fun _ => ret tt));
      [apply writes_undoMove | intros b; apply writes_ret].
  - intros w. unfold ev_resign, fire, handleResign.
    destruct (isActive (explorationState w)); [| destruct c]; left; reflexivity.
  - intros w. unfold ev_moveClick, fire, handleMoveClick.
    destruct (isActive (explorationState w)); [left; reflexivity |].
    apply writes_gotoMove.
  - intros w. unfold ev_explore, fire, handleExplore.
    apply writes_bind; [intros w'; left; reflexivity |]. intros u.
    apply writes_bind; [apply writes_new_Chess |]. intros t.
    apply writes_bind;
      [apply writes_forEach; intros m s; apply writes_try_line_move |].
    intros t'. apply writes_bind; [apply writes_loadFen |].
    intros b. apply writes_ret.
  - intros w. unfold ev_next, fire, handleExplorationNext.
    destruct (currentLine (explorationState w)) as [line |]; [| left; reflexivity].
    destruct (_ >=? _); [left; reflexivity |].
    apply writes_bind; [intros w'; left; reflexivity |]. intros u.
    apply writes_show_prefix.
  - intros w. unfold ev_previous, fire, handleExplorationPrevious.
    destruct (currentLine (explorationState w)) as [line |]; [| left; reflexivity].
    destruct (_ <=? _); [left; reflexivity |].
    apply writes_bind; [intros w'; left; reflexivity |]. intros u.
    apply writes_show_prefix.
  - intros w. unfold ev_exit, fire, handleExitExploration.
    apply writes_bind.
    + unfold exitExploration. apply writes_bind;
        [intros w'; left; reflexivity | intros u; apply writes_ret].
    + intros saved. apply writes_bind; [apply writes_loadFen |].
      intros b. apply writes_gotoMove.
Qed.

(** The game operations do not look at the exploration state. *)
Lemma makeMove_keeps_exploration (x : ExplorationState) (from to : string)
  (promotion : option string) :
  preserves E (fun w => explorationState w = x) (makeMove E from to promotion).
Proof.
  intros w H. unfold makeMove, try_catch, bind, game_move.
  destruct (Chess_move E (game w) _ _ _) as [[san g'] |]; exact H.
Qed.

Lemma undoMove_keeps_exploration (x : ExplorationState) :
  preserves E (fun w => explorationState w = x) (undoMove E).
Proof.
  intros w H. unfold undoMove, bind, game_undo.
  destruct (Chess_undo E (game w)) as [[san g'] |]; exact H.
Qed.

Lemma gotoMove_keeps_exploration (x : ExplorationState) (snap : World E)
  (index : Z) :
  preserves E (fun w => explorationState w = x) (gotoMove E snap index).
Proof.
  unfold gotoMove. destruct (_ || _); [apply preserves_ret |].
  apply preserves_bind; [intros w H; exact H |]. intros u.
  apply preserves_bind.
  - apply preserves_forEach. intros m s.
    apply preserves_bind; [| intros o; apply preserves_ret].
    intros w H. unfold game_move_san.
    destruct (Chess_move_san E (game w) m) as [[san g'] |]; exact H.
  - intros u'. apply preserves_bind; [intros w H; exact H |].
    intros g w H. exact H.
Qed.

(** Outside exploration the five game events leave the exploration
    state alone, and all but the history click return. *)
Lemma game_event_idle (e : event) (w : World E) :
  isActive (explorationState w) = false ->
  match e with
  | Drop _ _ | NewGame _ | Undo | Resign _ =>
      fst (run_event E e w) = Returned tt /\
      explorationState (snd (run_event E e w)) = explorationState w
  | MoveClick _ =>
      explorationState (snd (run_event E e w)) = explorationState w
  | _ => True
  end.
Proof.
  intros Hidle.
  destruct e as [s t | c | | c | i | line | | |]; cbn [run_event]; trivial.
  - unfold bind, ev_drop, fire, onDrop, handleMove. rewrite Hidle.
    pose proof (makeMove_keeps_exploration (explorationState w) s t None w eq_refl)
      as Hx.
    destruct (makeMove_cases w s t None) as [(san & g' & _ & Hrun) | Hrun];
      rewrite Hrun in *; split; [reflexivity | exact Hx | reflexivity | exact Hx].
  - unfold ev_newGame, fire, handleNewGame. rewrite Hidle.
    destruct (0 <? _); [destruct c |]; split; reflexivity.
  - unfold ev_undo, fire, handleUndo. rewrite Hidle.
    pose proof (undoMove_keeps_exploration (explorationState w) w eq_refl) as Hx.
    unfold bind. unfold undoMove, bind, game_undo in *.
    destruct (Chess_undo E (game w)) as [[san g'] |]; split;
      (reflexivity || exact Hx).
  - unfold ev_resign, fire, handleResign. rewrite Hidle.
    destruct c; split; reflexivity.
  - unfold ev_moveClick, fire, handleMoveClick. rewrite Hidle.
    apply (gotoMove_keeps_exploration (explorationState w) w i w eq_refl).
Qed.

(** In the sandbox the five game events return and change neither the
    [GameState] nor the exploration state. *)
Lemma game_event_guarded (e : event) (w : World E) :
  isActive (explorationState w) = true ->
  match e with
  | Drop _ _ | NewGame _ | Undo | Resign _ | MoveClick _ =>
      fst (run_event E e w) = Returned tt /\
      explorationState (snd (run_event E e w)) = explorationState w /\
      gameState (snd (run_event E e w)) = gameState w
  | _ => True
  end.
Proof.
  intros Hactive.
  destruct e as [s t | c | | c | i | line | | |]; cbn [run_event]; trivial.
  - unfold bind, ev_drop, fire, onDrop. rewrite Hactive. repeat split.
  - unfold ev_newGame, fire, handleNewGame. rewrite Hactive. repeat split.
  - unfold ev_undo, fire, handleUndo. rewrite Hactive. repeat split.
  - unfold ev_resign, fire, handleResign. rewrite Hactive. repeat split.
  - unfold ev_moveClick, fire, handleMoveClick. rewrite Hactive. repeat split.
Qed.

(** A next or previous click in an episode returns; it changes nothing,
    or it moves [currentPosition] as the hook does and shows a loaded
    position. *)
Lemma ev_next_in_episode (w : World E) (line : ChessLine) (p : Pos E) :
  currentLine (explorationState w) = Some line ->
  savedFen (explorationState w) = pos_fen E p ->
  0 <= currentPosition (explorationState w) ->
  exists w' : World E,
    ev_next E w = (Returned tt, w') /\
    ((explorationState w' = explorationState w /\ gameState w' = gameState w) \/
     (explorationState w' = explorationState (snd (nextPosition E w)) /\
      exists q : Pos E, gameState w' = loaded_state E q)).
Proof.
  intros Hline Hsaved Hcp.
  unfold ev_next, fire, handleExplorationNext. rewrite Hline.
  destruct (currentPosition (explorationState w) + 1
            >=? Z.of_nat (length (moves line))) eqn:Hend.
  - exists w. split; [reflexivity |]. left. split; reflexivity.
  - rewrite Z.geb_leb in Hend. apply Z.leb_gt in Hend.
    unfold bind at 1. unfold nextPosition, updateExplorationState.
    match goal with
    | |- context [bind E (new_Chess E _) _ ?w0] =>
        destruct (show_prefix_run E line
                    (currentPosition (explorationState w) + 1) _ p w0 Hsaved)
          as (w' & Hrun & Hs & Hx); [lia |]
    end.
    exists w'. split; [exact Hrun |]. right. split; [exact Hx |].
    eexists. exact Hs.
Qed.

Lemma ev_previous_in_episode (w : World E) (line : ChessLine) (p : Pos E) :
  currentLine (explorationState w) = Some line ->
  savedFen (explorationState w) = pos_fen E p ->
  currentPosition (explorationState w)
    <= Z.max 0 (Z.of_nat (length (moves line)) - 1) ->
  exists w' : World E,
    ev_previous E w = (Returned tt, w') /\
    ((explorationState w' = explorationState w /\ gameState w' = gameState w) \/
     (explorationState w' = explorationState (snd (previousPosition E w)) /\
      exists q : Pos E, gameState w' = loaded_state E q)).
Proof.
  intros Hline Hsaved Hcp.
  unfold ev_previous, fire, handleExplorationPrevious. rewrite Hline.
  destruct (currentPosition (explorationState w) <=? 0) eqn:Hend.
  - exists w. split; [reflexivity |]. left. split; reflexivity.
  - apply Z.leb_gt in Hend.
    unfold bind at 1. unfold previousPosition, updateExplorationState.
    match goal with
    | |- context [bind E (new_Chess E _) _ ?w0] =>
        destruct (show_prefix_run E line
                    (currentPosition (explorationState w) - 1) _ p w0 Hsaved)
          as (w' & Hrun & Hs & Hx); [lia |]
    end.
    exists w'. split; [exact Hrun |]. right. split; [exact Hx |].
    eexists. exact Hs.
Qed.

(** An exit click outside any episode: the default exploration state
    stays, and [gotoMove (-1)] puts the engine on the initial position. *)
Lemma ev_exit_idle (w : World E) :
  explorationState w = initialExplorationState ->
  exists w' : World E,
    ev_exit E w = (Returned tt, w') /\
    explorationState w' = initialExplorationState /\
    fen (gameState w') = pos_fen E (start E) /\
    moveHistory (gameState w') = moveHistory (gameState w) /\
    currentMoveIndex (gameState w') = -1.
Proof.
  intros Hx.
  unfold ev_exit, fire, handleExitExploration, exitExploration.
  unfold bind at 1. unfold bind at 1. unfold setExplorationState, ret at 1.
  cbv beta iota. rewrite Hx. cbn [saved_fen saved_moveIndex savedFen
    savedMoveIndex initialExplorationState].
  unfold bind at 1.
  set (w0 := with_explorationState E initialExplorationState w).
  assert (exists (b : bool) (w1 : World E),
            loadFen E EmptyString w0 = (Returned b, w1) /\
            explorationState w1 = initialExplorationState) as (b & w1 & Hload & Hx1).
  { unfold loadFen, try_catch, bind, game_load, Chess_load.
    destruct (parse_fen E EmptyString); eexists; eexists; split; reflexivity. }
  rewrite Hload.
  unfold gotoMove.
  replace (-1 <? -1) with false by reflexivity.
  replace (-1 >=? Z.of_nat (length (moveHistory (gameState w)))) with false
    by (symmetry; rewrite Z.geb_leb; apply Z.leb_gt; lia).
  cbn. eexists. split; [reflexivity |]. cbn. repeat split. exact Hx1.
Qed.

(** One event: the session stays well formed, and nothing but a history
    click can throw. *)
Ltac split_all := repeat match goal with |- _ /\ _ => split end.

Lemma run_event_session (e : event) (w : World E) :
  session_ok w ->
  session_ok (snd (run_event E e w)) /\
  (is_history_click e = false -> fst (run_event E e w) = Returned tt).
Proof.
  intros (Hfen & Hidx & Hx).
  assert (fen_printed (snd (run_event E e w)) /\
          index_in_range (snd (run_event E e w))) as (Hfen' & Hidx').
  { unfold fen_printed, index_in_range.
    destruct (writes_run_event e w) as [Hsame | (Hp & Hr)].
    - rewrite Hsame. split; assumption.
    - split; assumption. }
  enough (exploration_consistent (snd (run_event E e w)) /\
          (is_history_click e = false -> fst (run_event E e w) = Returned tt))
    as (Hx' & Hret) by (split; [split; [| split] |]; assumption).
  clear Hfen' Hidx'.
  unfold exploration_consistent in Hx |- *.
  destruct Hfen as (p0 & Hfen).
  destruct (isActive (explorationState w)) eqn:Hactive.
  - (* in the sandbox *)
    destruct Hx as (line & p & Hline & Hsaved & Hcp & Hh & Hi).
    pose proof (game_event_guarded e w Hactive) as Hguard.
    destruct e as [s t | c | | c | i | line2 | | |];
      try (destruct Hguard as (Hret & Hxs & Hgs);
           rewrite Hxs, Hgs, Hactive;
           split; [exists line, p; split_all; (reflexivity || assumption || lia) | intros _; exact Hret]).
    + (* Explore *)
      cbn [run_event].
      destruct (ev_explore_run E w line2 p0 Hfen)
        as (w' & Hrun & _ & Hs & Hxs & _).
      rewrite Hrun. cbn [fst snd]. rewrite Hxs, Hs. cbn.
      split; [| reflexivity].
      exists line2, p0. split_all; (reflexivity || exact Hfen || lia).
    + (* Next *)
      cbn [run_event].
      destruct (ev_next_in_episode w line p Hline Hsaved (proj1 Hcp))
        as (w' & Hrun & [(Hxs & Hgs) | (Hxs & q & Hgs)]);
        rewrite Hrun; cbn [fst snd]; rewrite Hxs, Hgs.
      * rewrite Hactive. split; [| reflexivity].
        exists line, p. split_all; (reflexivity || assumption || lia).
      * cbn. rewrite Hactive, Hline. split; [| reflexivity].
        exists line, p. unfold length_or_1.
        destruct (Z.eqb_spec (Z.of_nat (length (moves line))) 0);
          split_all; (reflexivity || assumption || lia).
    + (* Previous *)
      cbn [run_event].
      destruct (ev_previous_in_episode w line p Hline Hsaved (proj2 Hcp))
        as (w' & Hrun & [(Hxs & Hgs) | (Hxs & q & Hgs)]);
        rewrite Hrun; cbn [fst snd]; rewrite Hxs, Hgs.
      * rewrite Hactive. split; [| reflexivity].
        exists line, p. split_all; (reflexivity || assumption || lia).
      * cbn. rewrite Hactive. split; [| reflexivity].
        exists line, p. split_all; (reflexivity || assumption || lia).
    + (* Exit *)
      cbn [run_event].
      destruct (ev_exit_run E w p (savedMoveIndex (explorationState w)))
        as (w' & Hrun & _ & _ & _ & Hxs).
      { unfold sandboxed. split_all; (reflexivity || assumption). }
      rewrite Hrun. cbn [fst snd]. rewrite Hxs. cbn. split; reflexivity.
  - (* outside *)
    pose proof (game_event_idle e w Hactive) as Hidle.
    destruct e as [s t | c | | c | i | line2 | | |];
      try (destruct Hidle as (Hret & Hxs);
           rewrite Hxs, Hactive; split; [exact Hx | intros _; exact Hret]).
    + (* MoveClick *)
      rewrite Hidle, Hactive. split; [exact Hx | discriminate].
    + (* Explore *)
      cbn [run_event].
      destruct (ev_explore_run E w line2 p0 Hfen)
        as (w' & Hrun & _ & Hs & Hxs & _).
      rewrite Hrun. cbn [fst snd]. rewrite Hxs, Hs. cbn.
      split; [| reflexivity].
      exists line2, p0. split_all; (reflexivity || exact Hfen || lia).
    + (* Next *)
      cbn [run_event]. unfold ev_next, fire, handleExplorationNext.
      rewrite Hx. cbn. rewrite Hx. cbn. split; reflexivity.
    + (* Previous *)
      cbn [run_event]. unfold ev_previous, fire, handleExplorationPrevious.
      rewrite Hx. cbn. rewrite Hx. cbn. split; reflexivity.
    + (* Exit *)
      cbn [run_event].
      destruct (ev_exit_idle w Hx) as (w' & Hrun & Hxs & _).
      rewrite Hrun. cbn [fst snd]. rewrite Hxs. cbn. split; reflexivity.
Qed.

Lemma initialWorld_session : session_ok (initialWorld E).
Proof.
  split; [| split].
  - exists (start E). reflexivity.
  - unfold index_in_range. cbn. lia.
  - reflexivity.
Qed.

Lemma run_events_session (l : list event) :
  forall w : World E, session_ok w -> session_ok (run_events E l w).
Proof.
  unfold run_events. induction l as [| e l IH]; intros w H; cbn [fold_left].
  - exact H.
  - apply IH. apply run_event_session. exact H.
Qed.

(** X10: after any sequence of events of the game page from the first
    render, [currentMoveIndex] is within [-1 .. len (moveHistory) - 1]
    and the FEN shown is one the engine has printed. *)
Theorem game_state_stays_well_formed (events : list event) :
  index_in_range (run_events E events (initialWorld E)) /\
  fen_printed (run_events E events (initialWorld E)).
Proof.
  destruct (run_events_session events _ initialWorld_session) as (Hf & Hi & _).
  split; assumption.
Qed.

(** X11: after any sequence of events from the first render, the
    exploration state is the default one whenever [isActive] is false;
    whenever it is true there is a line, the saved FEN is a printed one,
    [currentPosition] is in range, and the [GameState] shows an empty
    history with index [-1]. *)
Theorem exploration_state_stays_consistent (events : list event) :
  exploration_consistent (run_events E events (initialWorld E)).
Proof.
  destruct (run_events_session events _ initialWorld_session) as (_ & _ & Hx).
  exact Hx.
Qed.

(** X12: after any sequence of events from the first render, every
    handler of the game page but the history click returns without
    throwing. *)
Theorem only_history_click_can_throw (events : list event) (e : event) :
  is_history_click e = false ->
  fst (run_event E e (run_events E events (initialWorld E))) = Returned tt.
Proof.
  intros Hnot.
  apply (run_event_session e _ (run_events_session events _ initialWorld_session)).
  exact Hnot.
Qed.

(** ** The board and the engine *)

Lemma makeMove_in_step (w : World E) (from to : string)
  (promotion : option string) :
  board_in_step w -> board_in_step (snd (makeMove E from to promotion w)).
Proof.
  intros H. destruct (makeMove_cases w from to promotion)
    as [(san & g' & _ & Hrun) | Hrun]; rewrite Hrun; [reflexivity | exact H].
Qed.

Lemma undoMove_in_step (w : World E) :
  board_in_step w -> board_in_step (snd (undoMove E w)).
Proof.
  intros H. unfold undoMove, bind, game_undo.
  destruct (Chess_undo E (game w)) as [[san g'] |]; [reflexivity | exact H].
Qed.

Lemma loadFen_in_step (w : World E) (f : string) :
  board_in_step w -> board_in_step (snd (loadFen E f w)).
Proof.
  intros H. unfold loadFen, try_catch, bind, game_load.
  destruct (Chess_load E f); [reflexivity | exact H].
Qed.

(** The handlers, one equation each. *)
Lemma gotoMove_run (snap w : World E) (index : Z) :
  gotoMove E snap index w =
  if (index <? -1) || (index >=? Z.of_nat (length (moveHistory (gameState snap))))
  then (Returned tt, w)
  else
    match forEach E (slice0 (index + 1) (moveHistory (gameState snap)))
            (fun move (_ : unit) =>
               bind E (game_move_san E move) (fun _ => ret tt)) tt
            (with_game E (Chess_default E) w) with
    | (Returned _, w') =>
        (Returned tt,
         with_gameState E
           {| fen := Chess_fen E (game w');
              moveHistory := moveHistory (gameState snap);
              currentMoveIndex := index;
              isGameOver := Chess_isGameOver E (game w');
              turn := Chess_turn E (game w') |} w')
    | (Thrown e, w') => (Thrown e, w')
    end.
Proof.
  unfold gotoMove. destruct (_ || _); reflexivity.
Qed.

Lemma show_prefix_cases (line : ChessLine) (pos : Z) (f : string) (w : World E) :
  bind E (new_Chess E f) (fun tempGame =>
    bind E (replay_upto E line pos tempGame) (fun tempGame =>
      bind E (loadFen E (Chess_fen E tempGame)) (fun _ => ret tt))) w
  = match Chess_load E f with
    | None => (Thrown "Invalid FEN", w)
    | Some t =>
        match replay_upto E line pos t w with
        | (Returned t', w1) =>
            (Returned tt,
             with_gameState E (loaded_state E (position t'))
               (with_game E {| position := position t'; past := [] |} w1))
        | (Thrown e, w1) => (Thrown e, w1)
        end
    end.
Proof.
  unfold bind at 1. unfold new_Chess.
  destruct (Chess_load E f) as [t |]; [| reflexivity].
  unfold ret at 1. cbv beta iota. unfold bind at 1.
  destruct (replay_upto E line pos t w) as [[t' | e] w1]; [| reflexivity].
  unfold bind. unfold Chess_fen. rewrite loadFen_printed. reflexivity.
Qed.

Lemma ev_next_run (w : World E) :
  ev_next E w =
  match currentLine (explorationState w) with
  | None => (Returned tt, w)
  | Some line =>
      if currentPosition (explorationState w) + 1
         >=? Z.of_nat (length (moves line))
      then (Returned tt, w)
      else
        bind E (new_Chess E (savedFen (explorationState w))) (fun tempGame =>
          bind E (replay_upto E line (currentPosition (explorationState w) + 1)
                    tempGame) (fun tempGame =>
            bind E (loadFen E (Chess_fen E tempGame)) (fun _ => ret tt)))
          (snd (nextPosition E w))
  end.
Proof.
  unfold ev_next, fire, handleExplorationNext.
  destruct (currentLine (explorationState w)); [| reflexivity].
  destruct (_ >=? _); reflexivity.
Qed.

Lemma ev_previous_run (w : World E) :
  ev_previous E w =
  match currentLine (explorationState w) with
  | None => (Returned tt, w)
  | Some line =>
      if currentPosition (explorationState w) <=? 0
      then (Returned tt, w)
      else
        bind E (new_Chess E (savedFen (explorationState w))) (fun tempGame =>
          bind E (replay_upto E line (currentPosition (explorationState w) - 1)
                    tempGame) (fun tempGame =>
            bind E (loadFen E (Chess_fen E tempGame)) (fun _ => ret tt)))
          (snd (previousPosition E w))
  end.
Proof.
  unfold ev_previous, fire, handleExplorationPrevious.
  destruct (currentLine (explorationState w)); [| reflexivity].
  destruct (_ <=? _); reflexivity.
Qed.

Lemma ev_exit_cases (w : World E) :
  ev_exit E w =
  match loadFen E (savedFen (explorationState w))
          (with_explorationState E initialExplorationState w) with
  | (Returned _, w1) => gotoMove E w (savedMoveIndex (explorationState w)) w1
  | (Thrown e, w1) => (Thrown e, w1)
  end.
Proof. reflexivity. Qed.

(** A [gotoMove] that returns has printed the engine it has moved. *)
Lemma gotoMove_in_step (snap w : World E) (index : Z) :
  board_in_step w ->
  fst (gotoMove E snap index w) = Returned tt ->
  board_in_step (snd (gotoMove E snap index w)).
Proof.
  intros H. rewrite gotoMove_run.
  destruct (_ || _); [intros _; exact H |].
  destruct (forEach E _ _ tt _) as [[[] | e] w1]; [| discriminate].
  intros _. reflexivity.
Qed.

(** The tail of a navigation click, when it returns, has loaded what it
    shows. *)
Lemma show_prefix_in_step (line : ChessLine) (pos : Z) (f : string)
  (w : World E) :
  fst (bind E (new_Chess E f) (fun tempGame =>
         bind E (replay_upto E line pos tempGame) (fun tempGame =>
           bind E (loadFen E (Chess_fen E tempGame)) (fun _ => ret tt))) w)
    = Returned tt ->
  board_in_step
    (snd (bind E (new_Chess E f) (fun tempGame =>
            bind E (replay_upto E line pos tempGame) (fun tempGame =>
              bind E (loadFen E (Chess_fen E tempGame)) (fun _ => ret tt))) w)).
Proof.
  rewrite show_prefix_cases.
  destruct (Chess_load E f) as [t |]; [| discriminate].
  destruct (replay_upto E line pos t w) as [[t' | e] w1]; [| discriminate].
  intros _. reflexivity.
Qed.

(** X13: when the board shows the engine's position, it still does after
    every handler of the game page that returns. *)
Theorem board_follows_engine (e : event) (w : World E) :
  board_in_step w ->
  fst (run_event E e w) = Returned tt ->
  board_in_step (snd (run_event E e w)).
Proof.
  intros H.
  destruct e as [s t | c | | c | i | line | | |]; cbn [run_event].
  - intros _. unfold bind, ev_drop, fire, onDrop, handleMove.
    destruct (isActive (explorationState w)); [exact H |].
    pose proof (makeMove_in_step w s t None H) as Hm.
    destruct (makeMove E s t None w) as [[b | e] w1]; exact Hm.
  - intros _. unfold ev_newGame, fire, handleNewGame.
    destruct (isActive (explorationState w)); [exact H |].
    destruct (0 <? _); [destruct c |]; (reflexivity || exact H).
  - intros _. unfold ev_undo, fire, handleUndo.
    destruct (isActive (explorationState w)); [exact H |].
    pose proof (undoMove_in_step w H) as Hu. unfold bind.
    destruct (undoMove E w) as [[b | e] w1]; exact Hu.
  - intros _. unfold ev_resign, fire, handleResign.
    destruct (isActive (explorationState w)); [| destruct c]; exact H.
  - unfold ev_moveClick, fire, handleMoveClick.
    destruct (isActive (explorationState w)); [intros _; exact H |].
    apply gotoMove_in_step. exact H.
  - intros _.
    destruct (ev_explore_run E w line (position (game w)) H)
      as (w' & Hrun & Hg & Hs & _).
    rewrite Hrun. cbn [snd]. unfold board_in_step. rewrite Hg, Hs. reflexivity.
  - rewrite ev_next_run.
    destruct (currentLine (explorationState w)) as [line |]; [| intros _; exact H].
    destruct (_ >=? _); [intros _; exact H |].
    apply show_prefix_in_step.
  - rewrite ev_previous_run.
    destruct (currentLine (explorationState w)) as [line |]; [| intros _; exact H].
    destruct (_ <=? _); [intros _; exact H |].
    apply show_prefix_in_step.
  - rewrite ev_exit_cases.
    pose proof (loadFen_in_step
                  (with_explorationState E initialExplorationState w)
                  (savedFen (explorationState w)) H) as Hl.
    destruct (loadFen E (savedFen (explorationState w))
                (with_explorationState E initialExplorationState w))
      as [[b | err] w1]; [| discriminate].
    cbn [snd] in Hl. apply gotoMove_in_step. exact Hl.
Qed.

End InterfaceFacts.

Section ViewerFacts.

Local Open Scope list_scope.

Variable E : Rules.

(** ** The game viewer *)

Lemma js_slice_to_firstn {A} (stop : Z) (l : list A) :
  0 <= stop -> js_slice_to stop l = firstn (Z.to_nat stop) l.
Proof.
  intros H. unfold js_slice_to.
  destruct (Z.ltb_spec stop 0); [lia | reflexivity].
Qed.

(** The viewer's replay loop returns exactly on the lists that replay,
    and ends on the replayed position. *)
Lemma chess_play_replays (l : list string) :
  forall (g : ChessObj (Pos E)) (p : Pos E),
    replay_san E (position g) l = Some p ->
    exists g' : ChessObj (Pos E),
      chess_play E g l = (g', true) /\ position g' = p.
Proof.
  induction l as [| s l IH]; intros g p H; cbn in H |- *.
  - exists g. split; [reflexivity | congruence].
  - unfold Chess_move_san.
    destruct (move_san E (position g) s) as [[san p'] |]; [| discriminate].
    apply (IH {| position := p'; past := (position g, san) :: past g |} p H).
Qed.

Lemma viewer_gotoMove_range (v : Viewer E) (index : Z) :
  viewer_in_range v ->
  -1 <= index <= Z.of_nat (length (viewer_moveHistory v)) - 1 ->
  viewer_in_range (snd (viewer_gotoMove E v index v)) /\
  viewer_moveHistory (snd (viewer_gotoMove E v index v)) = viewer_moveHistory v.
Proof.
  intros Hv Hk. unfold viewer_gotoMove.
  destruct (chess_play E (Chess_default E) _) as [g [|]]; cbn;
    split; (reflexivity || exact Hv || exact Hk).
Qed.

Lemma history_button_index (moves : list string) (i : Z) :
  existsb (Z.eqb i) (map fst (historyButtons moves)) = true ->
  0 <= i < Z.of_nat (length moves).
Proof.
  intros H. apply existsb_exists in H. destruct H as (j & Hin & Heq).
  apply Z.eqb_eq in Heq. subst j.
  apply in_map_iff in Hin. destruct Hin as (b & Hfst & Hin).
  pose proof (buttons_from_in_range (length moves) moves 0) as Hall.
  rewrite Forall_forall in Hall. specialize (Hall b Hin).
  rewrite Hfst in Hall. exact (proj1 Hall).
Qed.

Lemma run_viewer_event_range (e : viewer_event) (v : Viewer E) :
  viewer_in_range v -> viewer_in_range (snd (run_viewer_event E e v)).
Proof.
  intros Hv. pose proof Hv as Hv0. unfold viewer_in_range in Hv0.
  destruct e as [[data |] | | | | | i]; cbn [run_viewer_event].
  - unfold viewer_load.
    destruct (engine_loadPgn E (viewer_chess v) (pgn_data data)) as [g [|]];
      unfold viewer_in_range; cbn; [lia | exact Hv].
  - unfold viewer_in_range. cbn. lia.
  - apply viewer_gotoMove_range; [exact Hv | lia].
  - unfold viewer_handlePrevious.
    destruct (viewer_currentMoveIndex v >? -1) eqn:Hgt; [| exact Hv].
    rewrite Z.gtb_ltb in Hgt. apply Z.ltb_lt in Hgt.
    apply viewer_gotoMove_range; [exact Hv | lia].
  - unfold viewer_handleNext.
    destruct (viewer_currentMoveIndex v <? _) eqn:Hlt; [| exact Hv].
    apply Z.ltb_lt in Hlt.
    apply viewer_gotoMove_range; [exact Hv | lia].
  - apply viewer_gotoMove_range; [exact Hv | lia].
  - destruct (existsb _ _) eqn:Hbutton; [| exact Hv].
    apply history_button_index in Hbutton.
    apply viewer_gotoMove_range; [exact Hv | lia].
Qed.

(** X18: whatever games are selected and whatever buttons are clicked,
    the viewer's [currentMoveIndex] stays within
    [-1 .. len (moveHistory) - 1], although its [gotoMove] checks no
    range: its callers never pass an index outside. *)
Theorem viewer_index_stays_in_range (events : list viewer_event) :
  viewer_in_range (run_viewer_events E events (initialViewer E)).
Proof.
  assert (forall v : Viewer E,
            viewer_in_range v -> viewer_in_range (run_viewer_events E events v))
    as Hall.
  { unfold run_viewer_events.
    induction events as [| e l IH]; intros v Hv; cbn [fold_left].
    - exact Hv.
    - apply IH. apply run_viewer_event_range. exact Hv. }
  apply Hall. unfold viewer_in_range. cbn. lia.
Qed.

Lemma viewer_gotoMove_shows (v : Viewer E) (index : Z) :
  replay_san E (start E) (viewer_moveHistory v) <> None ->
  -1 <= index <= Z.of_nat (length (viewer_moveHistory v)) - 1 ->
  fst (viewer_gotoMove E v index v) = Returned tt /\
  viewer_shows_prefix (snd (viewer_gotoMove E v index v)) /\
  viewer_currentMoveIndex (snd (viewer_gotoMove E v index v)) = index /\
  viewer_moveHistory (snd (viewer_gotoMove E v index v)) = viewer_moveHistory v.
Proof.
  intros Hlegal Hk. unfold viewer_gotoMove.
  rewrite js_slice_to_firstn by lia.
  pose proof (replay_san_prefix E _ (start E) (Z.to_nat (index + 1)) Hlegal)
    as Hpre.
  destruct (replay_san E (start E)
              (firstn (Z.to_nat (index + 1)) (viewer_moveHistory v)))
    as [p |] eqn:Hp; [| congruence].
  destruct (chess_play_replays _ (Chess_default E) p Hp) as (g & Hplay & Hpos).
  rewrite Hplay. cbn. split; [reflexivity |]. split; [| split; reflexivity].
  exists p. cbn. split; [exact Hp |]. unfold Chess_fen. rewrite Hpos. reflexivity.
Qed.

(** X19: on a history that replays from the initial position, every
    navigation button of the viewer returns and leaves the board on the
    replay of [moveHistory[0..currentMoveIndex]], the history itself
    untouched. *)
Theorem viewer_navigation_shows_prefix (e : viewer_event) (v : Viewer E) :
  is_select e = false ->
  replay_san E (start E) (viewer_moveHistory v) <> None ->
  viewer_in_range v ->
  viewer_shows_prefix v ->
  fst (run_viewer_event E e v) = Returned tt /\
  viewer_shows_prefix (snd (run_viewer_event E e v)) /\
  viewer_moveHistory (snd (run_viewer_event E e v)) = viewer_moveHistory v.
Proof.
  intros Hnav Hlegal Hv Hshown. pose proof Hv as Hv0. unfold viewer_in_range in Hv0.
  assert (forall index,
            -1 <= index <= Z.of_nat (length (viewer_moveHistory v)) - 1 ->
            fst (viewer_gotoMove E v index v) = Returned tt /\
            viewer_shows_prefix (snd (viewer_gotoMove E v index v)) /\
            viewer_moveHistory (snd (viewer_gotoMove E v index v))
              = viewer_moveHistory v) as Hgoto.
  { intros index Hk.
    destruct (viewer_gotoMove_shows v index Hlegal Hk) as (H1 & H2 & _ & H4).
    repeat split; assumption. }
  destruct e as [game | | | | | i]; cbn [run_viewer_event]; [discriminate | ..].
  - apply Hgoto. lia.
  - unfold viewer_handlePrevious.
    destruct (viewer_currentMoveIndex v >? -1) eqn:Hgt;
      [| repeat split; trivial].
    rewrite Z.gtb_ltb in Hgt. apply Z.ltb_lt in Hgt. apply Hgoto. lia.
  - unfold viewer_handleNext.
    destruct (viewer_currentMoveIndex v <? _) eqn:Hlt;
      [| repeat split; trivial].
    apply Z.ltb_lt in Hlt. apply Hgoto. lia.
  - apply Hgoto. lia.
  - destruct (existsb _ _) eqn:Hbutton; [| repeat split; trivial].
    apply history_button_index in Hbutton. apply Hgoto. lia.
Qed.

End ViewerFacts.

(** * The scenarios, run *)

Local Open Scope list_scope.

(** ** Guards *)

(** [guards_reject_while_exploring] in the sandbox entered from the first
    render. *)
Lemma guards_reject_while_exploring_witness :
  isActive (explorationState (snd (ev_explore mini line_open w_start))) = true /\
  ev_move mini "d2" "d4" (snd (ev_explore mini line_open w_start))
    = (Returned false, snd (ev_explore mini line_open w_start)) /\
  ev_undo mini (snd (ev_explore mini line_open w_start))
    = (Returned tt, snd (ev_explore mini line_open w_start)) /\
  ev_moveClick mini 0 (snd (ev_explore mini line_open w_start))
    = (Returned tt, snd (ev_explore mini line_open w_start)).
Proof.
  assert (isActive (explorationState (snd (ev_explore mini line_open w_start)))
          = true) as active by (vm_compute; reflexivity).
  destruct (guards_reject_while_exploring mini
              (snd (ev_explore mini line_open w_start)) "d2" "d4" 0 true true active)
    as (Hmove & Hundo & Hclick & _).
  repeat split; assumption.
Defined.

(** ** Failing operations *)

(** [failed_operations_keep_state] on the move [e2e5], on a FEN of four
    ranks and on a record whose third move is illegal. *)
Lemma failed_operations_keep_state_witness :
  makeMove mini "e2" "e5" None w_start = (Returned false, w_start) /\
  loadFen mini "8/8/8/8 w - - 0 1" w_start = (Returned false, w_start) /\
  fst (loadPgn mini "1. e4 e5 2. Ke3" w_start) = Returned false /\
  gameState (snd (loadPgn mini "1. e4 e5 2. Ke3" w_start)) = gameState w_start.
Proof.
  apply failed_operations_keep_state; vm_compute; reflexivity.
Defined.

(** [undo_on_empty_history] after a move, an accepted record and the load
    of a bare FEN. *)
Lemma undo_on_empty_history_witness :
  undoMove mini (run_operations mini ops_bare_fen (initialWorld mini))
  = (Returned false, run_operations mini ops_bare_fen (initialWorld mini)).
Proof.
  apply (undo_on_empty_history mini ops_bare_fen).
  - vm_compute. repeat split.
  - vm_compute. reflexivity.
Defined.

(** In that sequence the record is accepted and gives a history of two
    moves, which the load of the FEN empties. *)
Example bare_fen_empties_history :
  moveHistory
    (gameState
       (run_operations mini [OpMakeMove "e2" "e4" None; OpLoadPgn "1. e4 e5"]
          (initialWorld mini))) = ["e4"; "e5"] /\
  moveHistory (gameState (run_operations mini ops_bare_fen (initialWorld mini)))
  = [] /\
  fen (gameState (run_operations mini ops_bare_fen (initialWorld mini)))
  = "rnbqkbnr/pppp1ppp/8/4p3/4P3/8/PPPP1PPP/RNBQKBNR w KQkq - 0 2".
Proof.
  vm_compute. repeat split.
Qed.

(** C10, as stated, fails: [loadPgn] refuses a record whose third move is
    illegal and leaves the [GameState] of the first render, with its empty
    move history; the engine has kept the two moves it had read, so
    [undoMove] answers [true] and writes a history of one move. *)
Lemma undo_after_refused_record :
  fst (loadPgn mini "1. e4 e5 2. Ke3" w_start) = Returned false /\
  moveHistory (gameState w_refused_record) = [] /\
  fst (undoMove mini w_refused_record) = Returned true /\
  moveHistory (gameState (snd (undoMove mini w_refused_record))) = ["e4"] /\
  gameState (snd (undoMove mini w_refused_record)) <> gameState w_refused_record.
Proof.
  vm_compute. repeat split. discriminate.
Qed.

(** ** History navigation: play [e2e4], [e7e5], then go to move 0 *)

(** [gotoMove_replays_prefix] at index 0 of the history [e4 e5]. *)
Lemma gotoMove_replays_prefix_witness :
  exists (p : Pos mini) (w' : World mini),
    replay_san mini (start mini)
      (firstn (Z.to_nat (0 + 1)) (moveHistory (gameState w_e4_e5))) = Some p /\
    ev_gotoMove mini 0 w_e4_e5 = (Returned tt, w') /\
    fen (gameState w') = pos_fen mini p /\
    currentMoveIndex (gameState w') = 0 /\
    moveHistory (gameState w') = moveHistory (gameState w_e4_e5).
Proof.
  apply (proj1 (gotoMove_replays_prefix mini w_e4_e5 0)).
  - vm_compute. split; [discriminate | reflexivity].
  - vm_compute. discriminate.
Defined.

(** ** Exploration: enter on [e2e4 e7e5] from the start, then next *)


(** ** A line that ends on a malformed token *)

(** [explore_passes_over_illegal_token] on [e2e4 e7e5 zzzz]. *)
Lemma explore_passes_over_illegal_token_witness :
  exists w' : World mini,
    ev_explore mini line_truncated w_start = (Returned tt, w') /\
    fen (gameState w') =
      pos_fen mini (play_tokens mini
                      (play_tokens mini (start mini) ["e2e4"; "e7e5"]) []) /\
    ((forall m, In m [] ->
        apply_token mini (play_tokens mini (start mini) ["e2e4"; "e7e5"]) m = None) ->
     fen (gameState w') =
       pos_fen mini (play_tokens mini (start mini) ["e2e4"; "e7e5"])) /\
    console w' =
      console w_start ++
      "zzzz" :: rejected_tokens mini
                  (play_tokens mini (start mini) ["e2e4"; "e7e5"]) [].
Proof.
  apply (explore_passes_over_illegal_token mini w_start line_truncated
           (start mini) (play_tokens mini (start mini) ["e2e4"; "e7e5"])
           ["e2e4"; "e7e5"] [] "zzzz").
  - reflexivity.
  - reflexivity.
  - vm_compute. reflexivity.
  - vm_compute. reflexivity.
Defined.

(** C2, as stated, fails: with the malformed token first, the later
    token is still played, so the position shown is not the position of
    the empty prefix. *)
Lemma explore_continues_after_illegal_token :
  fen (gameState w_start) = pos_fen mini (start mini) /\
  moves line_skipping = [] ++ "zzzz" :: ["e2e4"] /\
  apply_all mini (start mini) [] = Some (start mini) /\
  apply_token mini (start mini) "zzzz" = None /\
  fst (ev_explore mini line_skipping w_start) = Returned tt /\
  fen (gameState (snd (ev_explore mini line_skipping w_start)))
    = "rnbqkbnr/pppppppp/8/8/4P3/8/PPPP1PPP/RNBQKBNR b KQkq - 0 1" /\
  fen (gameState (snd (ev_explore mini line_skipping w_start)))
    <> pos_fen mini (start mini).
Proof.
  vm_compute. repeat split; discriminate.
Qed.

(** ** Undo *)

(** [undo_at_head_pops_last] at the head of the history [e4 e5]. *)
Lemma undo_at_head_pops_last_witness :
  exists (w' : World mini) (p : Pos mini),
    undoMove mini w_e4_e5 = (Returned true, w') /\
    moveHistory (gameState w') = removelast (moveHistory (gameState w_e4_e5)) /\
    currentMoveIndex (gameState w')
      = Z.of_nat (length (moveHistory (gameState w_e4_e5))) - 2 /\
    replay_san mini (start mini) (removelast (moveHistory (gameState w_e4_e5)))
      = Some p /\
    fen (gameState w') = pos_fen mini p.
Proof.
  apply (undo_at_head_pops_last mini w_e4_e5).
  - vm_compute. reflexivity.
  - eapply chain_cons; [eapply chain_cons; [apply chain_nil |] |];
      vm_compute; reflexivity.
  - vm_compute. discriminate.
Defined.

(** C7, as stated, fails: after a click on the first move of the history
    [e4 e5], a successful undo leaves an empty history, not [e4], and the
    initial position, not the position after [e4]. *)
Lemma undo_after_history_click_drops_more :
  isActive (explorationState (snd (ev_moveClick mini 0 w_e4_e5))) = false /\
  moveHistory (gameState (snd (ev_moveClick mini 0 w_e4_e5))) = ["e4"; "e5"] /\
  fst (undoMove mini (snd (ev_moveClick mini 0 w_e4_e5))) = Returned true /\
  moveHistory (gameState (snd (undoMove mini (snd (ev_moveClick mini 0 w_e4_e5)))))
    = [] /\
  moveHistory (gameState (snd (undoMove mini (snd (ev_moveClick mini 0 w_e4_e5)))))
    <> removelast (moveHistory (gameState (snd (ev_moveClick mini 0 w_e4_e5)))) /\
  replay_san mini (start mini)
    (removelast (moveHistory (gameState (snd (ev_moveClick mini 0 w_e4_e5)))))
    = Some (position (game w_e4)) /\
  fen (gameState (snd (undoMove mini (snd (ev_moveClick mini 0 w_e4_e5)))))
    <> pos_fen mini (position (game w_e4)).
Proof.
  vm_compute. repeat split; discriminate.
Qed.

(** In a game loaded from a FEN, undo pops the last record as well, but
    the remaining prefix [e5] is no move of the initial position: there is
    no replay of it from there. *)
Example undo_in_a_loaded_game :
  moveHistory (gameState w_loaded_e5_d4) = ["e5"; "d4"] /\
  fst (undoMove mini w_loaded_e5_d4) = Returned true /\
  moveHistory (gameState (snd (undoMove mini w_loaded_e5_d4))) = ["e5"] /\
  fen (gameState (snd (undoMove mini w_loaded_e5_d4)))
    = "rnbqkbnr/pppp1ppp/8/4p3/4P3/8/PPPP1PPP/RNBQKBNR w KQkq - 0 2" /\
  replay_san mini (start mini) ["e5"] = None.
Proof.
  vm_compute. repeat split.
Qed.

(** In the same game a history click throws: [gotoMove] resets the
    engine and the first recorded move is illegal there; the [GameState]
    is not updated. *)
Example gotoMove_in_a_loaded_game :
  fst (ev_gotoMove mini 0 w_loaded_e5) = Thrown "Invalid move" /\
  gameState (snd (ev_gotoMove mini 0 w_loaded_e5)) = gameState w_loaded_e5 /\
  Chess_fen mini (game (snd (ev_gotoMove mini 0 w_loaded_e5)))
    = "rnbqkbnr/pppppppp/8/8/8/8/PPPPPPPP/RNBQKBNR w KQkq - 0 1".
Proof.
  vm_compute. repeat split.
Qed.

(** C4, as stated, fails: in a game resumed after an exploration the
    history [e5 d4] starts from the position the exploration was left on.
    Index 0 is in range, yet [gotoMove 0] throws on the first recorded
    move, which is no move of the initial position; [currentMoveIndex]
    stays 1 and the [GameState] is the one before the call, while the
    engine is left on the initial position. *)
Lemma gotoMove_throws_in_resumed_game :
  moveHistory (gameState w_resumed) = ["e5"; "d4"] /\
  currentMoveIndex (gameState w_resumed) = 1 /\
  -1 <= 0 < Z.of_nat (length (moveHistory (gameState w_resumed))) /\
  replay_san mini (start mini)
    (firstn (Z.to_nat (0 + 1)) (moveHistory (gameState w_resumed))) = None /\
  fst (ev_gotoMove mini 0 w_resumed) = Thrown "Invalid move" /\
  currentMoveIndex (gameState (snd (ev_gotoMove mini 0 w_resumed))) <> 0 /\
  gameState (snd (ev_gotoMove mini 0 w_resumed)) = gameState w_resumed /\
  Chess_fen mini (game (snd (ev_gotoMove mini 0 w_resumed)))
    = "rnbqkbnr/pppppppp/8/8/8/8/PPPPPPPP/RNBQKBNR w KQkq - 0 1".
Proof.
  vm_compute. repeat split; discriminate.
Qed.

(** ** The range of currentPosition *)

(** C8, as stated, fails: on a line without moves [currentPosition] is
    [0], which is not within [0 .. len - 1 = -1]. *)
Lemma empty_line_position_out_of_range :
  isActive (explorationState (snd (ev_explore mini line_empty w_start))) = true /\
  currentPosition (explorationState (snd (ev_explore mini line_empty w_start))) = 0 /\
  ~ (0 <= currentPosition
            (explorationState (snd (ev_explore mini line_empty w_start)))
       <= Z.of_nat (length (moves line_empty)) - 1).
Proof.
  split; [vm_compute; reflexivity |]. split; [vm_compute; reflexivity |].
  vm_compute. intros [_ H]. apply H. reflexivity.
Qed.

(** ** Leaving the sandbox *)

(** C1 (defect): after [e2e4], exploring a line and leaving it gives
    back the FEN but not the history: [moveHistory] is empty and
    [currentMoveIndex] is [-1], where they were [e4] and [0]; a next
    click in between changes nothing to that. *)
Theorem exit_loses_history_after_e4 :
  moveHistory (gameState w_e4) = ["e4"] /\
  currentMoveIndex (gameState w_e4) = 0 /\
  fst (ev_exit mini (snd (ev_explore mini line_reply w_e4))) = Returned tt /\
  fen (gameState (snd (ev_exit mini (snd (ev_explore mini line_reply w_e4)))))
    = fen (gameState w_e4) /\
  moveHistory (gameState (snd (ev_exit mini (snd (ev_explore mini line_reply w_e4)))))
    = [] /\
  currentMoveIndex
    (gameState (snd (ev_exit mini (snd (ev_explore mini line_reply w_e4))))) = -1 /\
  moveHistory
    (gameState (snd (ev_exit mini
       (run_browses mini [ClickNext] (snd (ev_explore mini line_reply w_e4))))))
    = [].
Proof.
  vm_compute. repeat split.
Qed.

(** ** Around the hooks *)

(** [historyButtons_one_per_move] on a history of three moves. *)
Lemma historyButtons_one_per_move_witness :
  historyButtons ["e4"; "e5"; "Nf3"]
  = map (fun i => (Z.of_nat i, nth_error ["e4"; "e5"; "Nf3"] i))
        (seq 0 (length ["e4"; "e5"; "Nf3"])).
Proof.
  apply historyButtons_one_per_move.
  repeat constructor; discriminate.
Defined.

(** [undo_after_move_restores] for [e2e4] at the first render. *)
Lemma undo_after_move_restores_witness :
  exists w2 : World mini,
    undoMove mini (snd (makeMove mini "e2" "e4" None w_start)) = (Returned true, w2) /\
    game w2 = game w_start /\
    gameState w2 = engine_state mini (game w_start) /\
    explorationState w2 = explorationState w_start /\
    console w2 = console w_start /\ alerts w2 = alerts w_start /\
    (gameState w_start = engine_state mini (game w_start) -> w2 = w_start).
Proof.
  apply (undo_after_move_restores mini w_start "e2" "e4" None).
  vm_compute. reflexivity.
Defined.

(** [loadFen_starts_afresh] for the FEN after [e2e4], loaded over the
    game [e4 e5]. *)
Lemma loadFen_starts_afresh_witness :
  exists w1 : World mini,
    loadFen mini "rnbqkbnr/pppppppp/8/8/4P3/8/PPPP1PPP/RNBQKBNR b KQkq - 0 1"
      w_e4_e5 = (Returned true, w1) /\
    gameState w1 = loaded_state mini (position (game w_e4)) /\
    game w1 = {| position := position (game w_e4); past := [] |} /\
    undoMove mini w1 = (Returned false, w1) /\
    (forall k, k <> -1 -> ev_gotoMove mini k w1 = (Returned tt, w1)).
Proof.
  apply (loadFen_starts_afresh mini w_e4_e5).
  vm_compute. reflexivity.
Defined.

(** [newGame_outside_exploration] for a declined new game after
    [e4 e5]. *)
Lemma newGame_outside_exploration_witness :
  ev_newGame mini false w_e4_e5 =
  (Returned tt,
   if (0 <? Z.of_nat (length (moveHistory (gameState w_e4_e5)))) && negb false
   then w_e4_e5
   else with_gameState mini (engine_state mini (Chess_default mini))
          (with_game mini (Chess_default mini) w_e4_e5)).
Proof.
  apply (newGame_outside_exploration mini w_e4_e5 false).
  vm_compute. reflexivity.
Defined.

(** [disabled_navigation_is_noop] for the previous button right after
    entering a line. *)
Lemma disabled_navigation_is_noop_witness :
  ev_navigate mini Backward (snd (ev_explore mini line_open w_start))
  = (Returned tt, snd (ev_explore mini line_open w_start)).
Proof.
  apply (disabled_navigation_is_noop mini
           (snd (ev_explore mini line_open w_start)) Backward).
  vm_compute. reflexivity.
Defined.

(** [explore_legal_line] for the line [e2e4 e7e5] at the first render. *)
Lemma explore_legal_line_witness :
  exists w' : World mini,
    ev_explore mini line_open w_start = (Returned tt, w') /\
    fen (gameState w') = pos_fen mini (position (game w_e4_e5)) /\
    moveHistory (gameState w') = [] /\
    console w' = console w_start /\
    isActive (explorationState w') = true /\
    currentPosition (explorationState w') = 0 /\
    snapshot w' =
      {| saved_fen := fen (gameState w_start);
         saved_moveIndex := currentMoveIndex (gameState w_start);
         saved_moveHistory := moveHistory (gameState w_start) |}.
Proof.
  apply (explore_legal_line mini w_start line_open (start mini)
           (position (game w_e4_e5))).
  - reflexivity.
  - vm_compute. reflexivity.
Defined.

(** [nested_explore_saves_the_sandbox] for two lines entered after
    [e2e4]. *)
Lemma nested_explore_saves_the_sandbox_witness :
  snapshot (snd (ev_explore mini line_empty (snd (ev_explore mini line_reply w_e4)))) =
    {| saved_fen :=
         pos_fen mini (play_tokens mini (position (game w_e4)) (moves line_reply));
       saved_moveIndex := -1; saved_moveHistory := [] |} /\
  exists w3 : World mini,
    ev_exit mini (snd (ev_explore mini line_empty (snd (ev_explore mini line_reply w_e4))))
      = (Returned tt, w3) /\
    fen (gameState w3) = pos_fen mini (start mini) /\
    moveHistory (gameState w3) = [] /\
    currentMoveIndex (gameState w3) = -1.
Proof.
  apply (nested_explore_saves_the_sandbox mini w_e4 line_reply line_empty
           (position (game w_e4))).
  vm_compute. reflexivity.
Defined.

(** [only_history_click_can_throw] for an undo after a move, an
    exploration and another move. *)
Lemma only_history_click_can_throw_witness :
  fst (run_event mini Undo
         (run_events mini
            [Drop "e2" "e4"; Explore line_reply; Exit; Drop "e7" "e5"]
            (initialWorld mini))) = Returned tt.
Proof.
  apply (only_history_click_can_throw mini
           [Drop "e2" "e4"; Explore line_reply; Exit; Drop "e7" "e5"] Undo).
  reflexivity.
Defined.

(** The exception is real: in that very session a click on the first
    move of the history throws, because the history now starts from the
    position the exploration was left on, and [gotoMove] replays it from
    the initial position. *)
Example history_click_throws_after_exploration :
  moveHistory
    (gameState
       (run_events mini
          [Drop "e2" "e4"; Explore line_reply; Exit; Drop "e7" "e5"]
          (initialWorld mini))) = ["e5"] /\
  fst (run_event mini (MoveClick 0)
         (run_events mini
            [Drop "e2" "e4"; Explore line_reply; Exit; Drop "e7" "e5"]
            (initialWorld mini))) = Thrown "Invalid move".
Proof.
  vm_compute. split; reflexivity.
Qed.

(** [board_follows_engine] for the first move of a game. *)
Lemma board_follows_engine_witness :
  board_in_step (snd (run_event mini (Drop "e2" "e4") w_start)).
Proof.
  apply (board_follows_engine mini (Drop "e2" "e4") w_start).
  - reflexivity.
  - vm_compute. reflexivity.
Defined.

(** [engine_within_history_kept] after [e4 e5]. *)
Lemma engine_within_history_kept_witness :
  (forall from to promotion,
     engine_within_history (snd (makeMove mini from to promotion w_e4_e5))) /\
  engine_within_history (snd (undoMove mini w_e4_e5)) /\
  engine_within_history (snd (resetGame mini w_e4_e5)) /\
  (forall f, engine_within_history (snd (loadFen mini f w_e4_e5))) /\
  (forall k, engine_within_history (snd (ev_gotoMove mini k w_e4_e5))).
Proof.
  apply (engine_within_history_kept mini w_e4_e5).
  vm_compute. apply le_n.
Defined.

(** [viewer_navigation_shows_prefix] for a previous click in the viewer
    of a game of two moves. *)
Lemma viewer_navigation_shows_prefix_witness :
  fst (run_viewer_event mini VPrevious viewer_two_moves) = Returned tt /\
  viewer_shows_prefix (snd (run_viewer_event mini VPrevious viewer_two_moves)) /\
  viewer_moveHistory (snd (run_viewer_event mini VPrevious viewer_two_moves))
    = viewer_moveHistory viewer_two_moves.
Proof.
  apply (viewer_navigation_shows_prefix mini VPrevious viewer_two_moves).
  - reflexivity.
  - vm_compute. discriminate.
  - vm_compute. split; discriminate.
  - exists (position (viewer_chess viewer_two_moves)).
    split; vm_compute; reflexivity.
Defined.
